(** * AI Dynamic Routing: the route optimizer and the recompute orchestrator

    A shallow embedding of [app.py]: the haversine distance [get_distance],
    the road network client [get_osrm_data], the OR-tools front end
    [solve_vrp], the orchestrator [update_system] and the map click handler
    of [main].

    Numbers.  Python floats are modelled by real numbers (exact
    arithmetic), integers by [Z].  The rounding behaviour of
    [get_distance] on IEEE-754 doubles is studied separately: in the
    module [Ieee], on primitive floats, with the C library functions as
    parameters; and through [get_distance_within], the results of an
    evaluation whose rounding errors stay below a given tolerance.  The
    click handler is also given with [get_distance] as the interpreter
    runs it, a value or an exception ([on_click_run]).

    The outside world.  The constraint solver (OR-tools), the HTTP client
    and the polyline decoder are not part of the program: they are
    variables of the sections below, constrained by explicit contracts. *)

From Stdlib Require Import Reals Lra Lia ZArith String Bool List.
From Stdlib Require Import Zfloor Permutation.
From Stdlib Require Floats.PrimFloat Floats.FloatOps Floats.SpecFloat.
Import ListNotations.

Set Implicit Arguments.

(** ** Python values and outcomes *)

Inductive exn : Type :=
| ConnectionError | Timeout | JSONDecodeError
| KeyError | IndexError | TypeError | ValueError | OverflowError.

(** The outcome of running a piece of Python: a value, an exception, or
    no answer at all (a loop that does not stop). *)
Inductive result (A : Type) : Type :=
| Ret (a : A)
| Raise (e : exn)
| Diverge.

Arguments Ret {A} a.
Arguments Raise {A} e.
Arguments Diverge {A}.

Definition bind {A B : Type} (r : result A) (k : A -> result B) : result B :=
  match r with
  | Ret a => k a
  | Raise e => Raise e
  | Diverge => Diverge
  end.

Notation "x <- c ;; k" := (bind c (fun x => k))
  (at level 61, c at next level, right associativity).

(** [try: body except: handler] with a bare [except]. *)
Definition try_except {A : Type} (body : result A) (handler : A) : result A :=
  match body with
  | Ret a => Ret a
  | Raise _ => Ret handler
  | Diverge => Diverge
  end.

(** ** The geo distance function, exact arithmetic *)

Section GeoDistance.

Local Open Scope R_scope.

(** A coordinate is a (latitude, longitude) pair in degrees. *)
Definition coord : Type := (R * R)%type.

Definition coord_eq_dec (c d : coord) : {c = d} + {c <> d}.
Proof.
  destruct c as [x1 y1], d as [x2 y2].
  destruct (Req_dec_T x1 x2) as [Hx | Hx]; [destruct (Req_dec_T y1 y2) as [Hy | Hy] |].
  - left; congruence.
  - right; congruence.
  - right; congruence.
Defined.

Definition coord_eqb (c d : coord) : bool :=
  if coord_eq_dec c d then true else false.

(** [math.radians] *)
Definition radians (x : R) : R := x * (PI / 180).

(** [math.atan2], the angle of the point (x, y) in (-PI, PI]. *)
Definition atan2 (y x : R) : R :=
  if Rlt_dec 0 x then atan (y / x)
  else if Rlt_dec x 0 then
         (if Rle_dec 0 y then atan (y / x) + PI else atan (y / x) - PI)
       else if Rlt_dec 0 y then PI / 2
            else if Rlt_dec y 0 then - (PI / 2) else 0.

(** [math.sqrt] raises [ValueError] below zero. *)
Definition py_sqrt (x : R) : result R :=
  if Rlt_dec x 0 then Raise ValueError else Ret (sqrt x).

(** [int(x)] on a float: truncation toward zero. *)
Definition py_int (x : R) : Z :=
  if Rle_dec 0 x then Zfloor x else Zceil x.

Definition R_earth : Z := 6371000.

(** The haversine term [a] of [get_distance]. *)
Definition hav (lat1 lon1 lat2 lon2 : R) : R :=
  let phi1 := radians lat1 in
  let phi2 := radians lat2 in
  let dphi := radians (lat2 - lat1) in
  let dlambda := radians (lon2 - lon1) in
  sin (dphi / 2) ^ 2 + cos phi1 * cos phi2 * sin (dlambda / 2) ^ 2.

(** [get_distance], with the exceptions of [math.sqrt] written out. *)
Definition get_distance_checked (lat1 lon1 lat2 lon2 : R) : result Z :=
  let a := hav lat1 lon1 lat2 lon2 in
  s <- py_sqrt a ;;
  c <- py_sqrt (1 - a) ;;
  Ret (py_int (IZR (2 * R_earth) * atan2 s c)).

(** [get_distance] where no exception arises (see [get_distance_total]). *)
Definition get_distance (lat1 lon1 lat2 lon2 : R) : Z :=
  let a := hav lat1 lon1 lat2 lon2 in
  py_int (IZR (2 * R_earth) * atan2 (sqrt a) (sqrt (1 - a))).

(** [get_distance] on two unpacked coordinate pairs. *)
Definition distance (p q : coord) : Z :=
  get_distance (fst p) (snd p) (fst q) (snd q).

(** The number that [get_distance] truncates, in exact arithmetic: the
    expression [2 * R * math.atan2(math.sqrt(a), math.sqrt(1-a))] of
    line 35. *)
Definition haversine_m (p q : coord) : R :=
  let a := hav (fst p) (snd p) (fst q) (snd q) in
  IZR (2 * R_earth) * atan2 (sqrt a) (sqrt (1 - a)).

(** [x] is a value of that expression up to [eps] metres: what an
    evaluation on doubles hands to [int] when its rounding errors add up
    to no more than [eps]. *)
Definition computed_within (eps : R) (p q : coord) (x : R) : Prop :=
  Rabs (x - haversine_m p q) <= eps.

(** [d] is a result of [get_distance] on [p] and [q] for such an evaluation: the
    call returns, and what it truncates is within [eps] of the exact
    value. *)
Definition get_distance_within (eps : R) (p q : coord) (d : Z) : Prop :=
  exists x : R, computed_within eps p q x /\ d = py_int x.

(** The angle at the centre of the Earth between two coordinates, as the
    code computes it. *)
Definition central_angle (lat1 lon1 lat2 lon2 : R) : R :=
  let a := hav lat1 lon1 lat2 lon2 in
  2 * atan2 (sqrt a) (sqrt (1 - a)).

(** The unit vector of a coordinate. *)
Definition ux (lat lon : R) : R := cos (radians lat) * cos (radians lon).
Definition uy (lat lon : R) : R := cos (radians lat) * sin (radians lon).
Definition uz (lat : R) : R := sin (radians lat).

Definition dot (lat1 lon1 lat2 lon2 : R) : R :=
  ux lat1 lon1 * ux lat2 lon2 + uy lat1 lon1 * uy lat2 lon2 + uz lat1 * uz lat2.

End GeoDistance.

(** ** The request model *)

(** A stop of the catalog: [{"name": ..., "coords": (lat, lon)}]. *)
Record Stop : Type := { name : string; coords : coord }.

(** A passenger request: [{"start_stop": ..., "end_stop": ...}]. *)
Record Passenger : Type := { start_stop : Stop; end_stop : Stop }.

(** ** The OR-tools routing model, as [solve_vrp] builds it *)

(** [pywrapcp.RoutingIndexManager(num_nodes, num_vehicles, depot)].  The
    program always asks for one vehicle that starts and ends at node 0; the
    index layout below is the one OR-tools gives in that case: node [k] has
    index [k], and one more index, [num_nodes], stands for the end of the
    route and maps back to the depot node. *)
Record RoutingIndexManager : Type :=
  { num_nodes : nat; num_vehicles : nat; depot_node : nat }.

Definition NodeToIndex (mgr : RoutingIndexManager) (node : nat) : nat := node.

Definition IndexToNode (mgr : RoutingIndexManager) (index : nat) : nat :=
  if index <? num_nodes mgr then index else depot_node mgr.

(** [model.Start(0)], [model.End(0)] and [model.IsEnd(i)]. *)
Definition Start (mgr : RoutingIndexManager) : nat := NodeToIndex mgr (depot_node mgr).
Definition End (mgr : RoutingIndexManager) : nat := num_nodes mgr.
Definition IsEnd (mgr : RoutingIndexManager) (index : nat) : bool :=
  num_nodes mgr <=? index.

(** [model.AddDimension(transit, slack_max, capacity, fix_start_cumul_to_zero, name)] *)
Record Dimension : Type :=
  { dim_transit : nat -> nat -> Z;
    dim_slack_max : Z;
    dim_capacity : Z;
    dim_fix_start_cumul_to_zero : bool;
    dim_name : string }.

(** The constraints posted with [model.solver().Add]. *)
Inductive constraint : Type :=
| VehicleVarEq (i j : nat)     (* VehicleVar(i) == VehicleVar(j) *)
| CumulVarLe (i j : nat).      (* CumulVar(i) <= CumulVar(j) on the dimension *)

Inductive FirstSolutionStrategy : Type :=
| AUTOMATIC | PATH_CHEAPEST_ARC | PARALLEL_CHEAPEST_INSERTION.

Record RoutingModel : Type :=
  { manager : RoutingIndexManager;
    arc_cost : nat -> nat -> Z;
    dimension : Dimension;
    pickup_deliveries : list (nat * nat);
    constraints : list constraint }.

(** A solution: the value of [NextVar(i)] for every index [i] below
    [num_nodes]. *)
Definition Assignment : Type := list nat.

(** [solution.Value(model.NextVar(i))] *)
Definition Value (a : Assignment) (i : nat) : option nat := nth_error a i.

(** *** What a solution of a routing model is

    The checker below is the contract of the solver: the route from the
    start index visits every index once and stops at the end index; the
    cumulated transit of the dimension starts at zero, grows by the transit
    of each arc (the slack is zero) and stays within the capacity; each
    pair registered with [AddPickupAndDelivery] is on the route with its
    pickup before its delivery; the constraints posted with
    [solver().Add] hold. *)

(** The indices visited from [i] up to the end of the route, and the end
    index reached. *)
Fixpoint follow (n : nat) (a : Assignment) (fuel i : nat) : option (list nat * nat) :=
  if n <=? i then Some ([], i)
  else match fuel with
       | O => None
       | S fuel' =>
           match Value a i with
           | None => None
           | Some j =>
               match follow n a fuel' j with
               | None => None
               | Some (r, e) => Some (i :: r, e)
               end
           end
       end.

(** The cumulated transit at each index of the route [r], then at the end
    index [e]. *)
Fixpoint cumuls (t : nat -> nat -> Z) (c : Z) (r : list nat) (e : nat) : list Z :=
  match r with
  | [] => [c]
  | i :: r' => c :: cumuls t (c + t i (hd e r')) r' e
  end.

(** The position of an index on the route. *)
Fixpoint position (i : nat) (r : list nat) : option nat :=
  match r with
  | [] => None
  | j :: r' => if i =? j then Some O else option_map S (position i r')
  end.

Definition precedesb (p d : nat) (r : list nat) : bool :=
  match position p r, position d r with
  | Some i, Some j => i <? j
  | _, _ => false
  end.

Definition cumul_at (cs : list Z) (r : list nat) (i : nat) : option Z :=
  match position i r with
  | Some k => nth_error cs k
  | None => None
  end.

Definition holdsb (cs : list Z) (r : list nat) (c : constraint) : bool :=
  match c with
  | VehicleVarEq i j =>
      match position i r, position j r with
      | Some _, Some _ => true
      | _, _ => false
      end
  | CumulVarLe i j =>
      match cumul_at cs r i, cumul_at cs r j with
      | Some ci, Some cj => (ci <=? cj)%Z
      | _, _ => false
      end
  end.

Fixpoint nodupb (l : list nat) : bool :=
  match l with
  | [] => true
  | x :: l' => negb (existsb (Nat.eqb x) l') && nodupb l'
  end.

Definition feasibleb (m : RoutingModel) (a : Assignment) : bool :=
  let mgr := manager m in
  let n := num_nodes mgr in
  (length a =? n) &&
  match follow n a n (Start mgr) with
  | None => false
  | Some (r, e) =>
      let cs := cumuls (dim_transit (dimension m)) 0 r e in
      (e =? End mgr) && (length r =? n) && nodupb r &&
      forallb (fun c => (0 <=? c)%Z && (c <=? dim_capacity (dimension m))%Z) cs &&
      forallb (fun pd => precedesb (fst pd) (snd pd) r) (pickup_deliveries m) &&
      forallb (holdsb cs r) (constraints m)
  end.

(** [solution.ObjectiveValue()]: the arc costs along the route. *)
Definition ObjectiveValue (m : RoutingModel) (a : Assignment) : Z :=
  match follow (num_nodes (manager m)) a (num_nodes (manager m)) (Start (manager m)) with
  | None => 0
  | Some (r, e) => last (cumuls (arc_cost m) 0 r e) 0%Z
  end.

(** ** JSON values, as [requests] hands them to the program *)

#[local] Unset Elimination Schemes.

Inductive json : Type :=
| JNull
| JBool (b : bool)
| JNum (x : R)
| JStr (s : string)
| JArr (l : list json)
| JObj (items : list (string * json)).

#[local] Set Elimination Schemes.

Fixpoint lookup (k : string) (items : list (string * json)) : option json :=
  match items with
  | [] => None
  | (k', v) :: items' => if String.eqb k k' then Some v else lookup k items'
  end.

(** [v[k]] with a string key. *)
Definition getitem_str (v : json) (k : string) : result json :=
  match v with
  | JObj items =>
      match lookup k items with
      | Some x => Ret x
      | None => Raise KeyError
      end
  | _ => Raise TypeError
  end.

(** [v[n]] with an integer index. *)
Definition getitem_nat (v : json) (n : nat) : result json :=
  match v with
  | JArr l =>
      match nth_error l n with
      | Some x => Ret x
      | None => Raise IndexError
      end
  | JStr s =>
      match String.get n s with
      | Some c => Ret (JStr (String c EmptyString))
      | None => Raise IndexError
      end
  | JObj _ => Raise KeyError
  | _ => Raise TypeError
  end.

(** [x / d] on a value that came out of JSON. *)
Definition py_truediv (v : json) (d : R) : result R :=
  match v with
  | JNum x => Ret (x / d)%R
  | JBool b => Ret ((if b then 1 else 0) / d)%R
  | _ => Raise TypeError
  end.

(** ** The session state *)

(** [st.session_state['mode']]: ['idle'], ['depot'] or ['pass']. *)
Inductive Mode : Type := idle | mode_depot | mode_pass.

Record SessionState : Type :=
  { depot : coord;
    passengers : list Passenger;
    nearby_stops : list Stop;
    temp_p : option Stop;
    current_route_path : option (list coord);
    summary : list string;
    metrics : R * R;
    last_click : option coord;
    mode : Mode }.

Definition set_depot (c : coord) (st : SessionState) : SessionState :=
  {| depot := c; passengers := passengers st; nearby_stops := nearby_stops st;
     temp_p := temp_p st; current_route_path := current_route_path st;
     summary := summary st; metrics := metrics st; last_click := last_click st;
     mode := mode st |}.

Definition set_passengers (ps : list Passenger) (st : SessionState) : SessionState :=
  {| depot := depot st; passengers := ps; nearby_stops := nearby_stops st;
     temp_p := temp_p st; current_route_path := current_route_path st;
     summary := summary st; metrics := metrics st; last_click := last_click st;
     mode := mode st |}.

Definition set_temp_p (t : option Stop) (st : SessionState) : SessionState :=
  {| depot := depot st; passengers := passengers st; nearby_stops := nearby_stops st;
     temp_p := t; current_route_path := current_route_path st;
     summary := summary st; metrics := metrics st; last_click := last_click st;
     mode := mode st |}.

Definition set_current_route_path (p : option (list coord)) (st : SessionState)
  : SessionState :=
  {| depot := depot st; passengers := passengers st; nearby_stops := nearby_stops st;
     temp_p := temp_p st; current_route_path := p;
     summary := summary st; metrics := metrics st; last_click := last_click st;
     mode := mode st |}.

Definition set_summary (names : list string) (st : SessionState) : SessionState :=
  {| depot := depot st; passengers := passengers st; nearby_stops := nearby_stops st;
     temp_p := temp_p st; current_route_path := current_route_path st;
     summary := names; metrics := metrics st; last_click := last_click st;
     mode := mode st |}.

Definition set_metrics (km_min : R * R) (st : SessionState) : SessionState :=
  {| depot := depot st; passengers := passengers st; nearby_stops := nearby_stops st;
     temp_p := temp_p st; current_route_path := current_route_path st;
     summary := summary st; metrics := km_min; last_click := last_click st;
     mode := mode st |}.

Definition set_last_click (c : option coord) (st : SessionState) : SessionState :=
  {| depot := depot st; passengers := passengers st; nearby_stops := nearby_stops st;
     temp_p := temp_p st; current_route_path := current_route_path st;
     summary := summary st; metrics := metrics st; last_click := c;
     mode := mode st |}.

(** The calls that leave the orchestrator. *)
Inductive call : Type :=
| CallOptimizer (depot : coord) (passengers : list Passenger)
| CallRoadService (coords_list : list coord).

(** What running a handler leaves behind: the session state, the calls it
    made, and how it ended. *)
Record run : Type :=
  { state_after : SessionState; calls : list call; ending : result unit }.

(** ** The program *)

Section Program.

(** The state of everything outside the program: the search state of the
    solver, the network, the road service. *)
Variable world : Type.

(** [model.SolveWithParameters(params)]: a solution, or [None]. *)
Variable SolveWithParameters :
  world -> RoutingModel -> FirstSolutionStrategy -> option Assignment.

(** [requests.get(url, timeout=10).json()] for the route through the given
    (lon, lat) pairs: the decoded body, or the exception of the request or
    of the decoding. *)
Variable http_get_json : world -> list (R * R) -> result json.

(** [polyline.decode] *)
Variable polyline_decode : json -> result (list coord).

(** *** [get_osrm_data] *)

(** The (lon, lat) pairs that make the URL of the request. *)
Definition loc_str (coords_list : list coord) : list (R * R) :=
  map (fun c => (snd c, fst c)) coords_list.

(** The first route of a response: its decoded geometry, its distance and
    its duration. *)
Definition route_of_response (r : json) : result (list coord * json * json) :=
  routes <- getitem_str r "routes" ;;
  route <- getitem_nat routes 0 ;;
  geometry <- getitem_str route "geometry" ;;
  road <- polyline_decode geometry ;;
  distance_m <- getitem_str route "distance" ;;
  duration_s <- getitem_str route "duration" ;;
  Ret (road, distance_m, duration_s).

(** The body of the [try]. *)
Definition osrm_route (w : world) (coords_list : list coord)
  : result (list coord * json * json) :=
  r <- http_get_json w (loc_str coords_list) ;;
  route_of_response r.

(** The road service call fails: the request or the decoding of its body
    raises (network error, timeout, a body that is not JSON), or the body
    is malformed, with no first route to read. *)
Inductive road_service_fails (w : world) (coords_list : list coord) : Prop :=
| request_fails (e : exn) :
    http_get_json w (loc_str coords_list) = Raise e ->
    road_service_fails w coords_list
| response_malformed (r : json) (e : exn) :
    http_get_json w (loc_str coords_list) = Ret r ->
    route_of_response r = Raise e ->
    road_service_fails w coords_list.

Definition get_osrm_data (w : world) (coords_list : list coord)
  : result (list coord * json * json) :=
  if length coords_list <? 2 then Ret ([], JNum 0, JNum 0)
  else try_except (osrm_route w coords_list) (coords_list, JNum 0, JNum 0).

(** A body without a readable first route, by its shape: it is not an
    object, it has no list under the key [routes], the list is empty, its
    first item is not an object, the item has no geometry or one that
    does not decode, or it has no distance or no duration. *)
Inductive no_first_route : json -> Prop :=
| body_not_object (r : json) :
    (forall items, r <> JObj items) ->
    no_first_route r
| routes_missing (items : list (string * json)) :
    lookup "routes" items = None ->
    no_first_route (JObj items)
| routes_not_list (items : list (string * json)) (v : json) :
    lookup "routes" items = Some v ->
    (forall l, v <> JArr l) ->
    no_first_route (JObj items)
| routes_empty (items : list (string * json)) :
    lookup "routes" items = Some (JArr []) ->
    no_first_route (JObj items)
| route_not_object (items : list (string * json)) (first : json) (rest : list json) :
    lookup "routes" items = Some (JArr (first :: rest)) ->
    (forall fields, first <> JObj fields) ->
    no_first_route (JObj items)
| geometry_missing (items fields : list (string * json)) (rest : list json) :
    lookup "routes" items = Some (JArr (JObj fields :: rest)) ->
    lookup "geometry" fields = None ->
    no_first_route (JObj items)
| geometry_undecodable (items fields : list (string * json)) (rest : list json)
    (g : json) (e : exn) :
    lookup "routes" items = Some (JArr (JObj fields :: rest)) ->
    lookup "geometry" fields = Some g ->
    polyline_decode g = Raise e ->
    no_first_route (JObj items)
| field_missing (items fields : list (string * json)) (rest : list json)
    (g : json) (road : list coord) (k : string) :
    lookup "routes" items = Some (JArr (JObj fields :: rest)) ->
    lookup "geometry" fields = Some g ->
    polyline_decode g = Ret road ->
    k = "distance"%string \/ k = "duration"%string ->
    lookup k fields = None ->
    no_first_route (JObj items).

(** The road service is of no use for a coordinate list: the request or
    the decoding of its body raises (network error, timeout, a body that
    is not JSON), or the body has no readable first route. *)
Inductive road_service_unusable (w : world) (coords_list : list coord) : Prop :=
| request_raises (e : exn) :
    http_get_json w (loc_str coords_list) = Raise e ->
    road_service_unusable w coords_list
| response_unreadable (r : json) :
    http_get_json w (loc_str coords_list) = Ret r ->
    no_first_route r ->
    road_service_unusable w coords_list.

(** *** [solve_vrp] *)

(** One turn of the loop over the passengers: two more locations and one
    more pickup and delivery pair. *)
Definition add_request (acc : list coord * list (nat * nat)) (p : Passenger)
  : list coord * list (nat * nat) :=
  let (locs, pairs) := acc in
  let p_idx := length locs in
  let locs1 := locs ++ [coords (start_stop p)] in
  let d_idx := length locs1 in
  let locs2 := locs1 ++ [coords (end_stop p)] in
  (locs2, pairs ++ [(p_idx, d_idx)]).

Definition build_nodes (depot : coord) (passengers : list Passenger)
  : list coord * list (nat * nat) :=
  fold_left add_request passengers ([depot], []).

(** [locs[k]]; every use below has [k] under [len(locs)], see
    [IndexToNode_lt]. *)
Definition loc_at (locs : list coord) (k : nat) : coord := nth k locs (0%R, 0%R).

Definition dist_fn (locs : list coord) (mgr : RoutingIndexManager) (f t : nat) : Z :=
  distance (loc_at locs (IndexToNode mgr f)) (loc_at locs (IndexToNode mgr t)).

(** The constraints of one pickup and delivery pair. *)
Definition pair_constraints (mgr : RoutingIndexManager) (pd : nat * nat)
  : list constraint :=
  let pi := NodeToIndex mgr (fst pd) in
  let di := NodeToIndex mgr (snd pd) in
  [VehicleVarEq pi di; CumulVarLe pi di].

Definition routing_model (locs : list coord) (pairs : list (nat * nat)) : RoutingModel :=
  let mgr := {| num_nodes := length locs; num_vehicles := 1; depot_node := 0 |} in
  {| manager := mgr;
     arc_cost := dist_fn locs mgr;
     dimension := {| dim_transit := dist_fn locs mgr;
                     dim_slack_max := 0;
                     dim_capacity := 100000;
                     dim_fix_start_cumul_to_zero := true;
                     dim_name := "Dist" |};
     pickup_deliveries :=
       map (fun pd => (NodeToIndex mgr (fst pd), NodeToIndex mgr (snd pd))) pairs;
     constraints := flat_map (pair_constraints mgr) pairs |}.

(** The [while] loop that reads the route out of the solution. *)
Fixpoint read_path (mgr : RoutingIndexManager) (locs : list coord) (solution : Assignment)
    (fuel i : nat) (path : list coord) : result (list coord) :=
  if IsEnd mgr i then Ret (path ++ [loc_at locs (IndexToNode mgr i)])
  else match fuel with
       | O => Diverge
       | S fuel' =>
           match Value solution i with
           | None => Raise IndexError
           | Some j =>
               read_path mgr locs solution fuel' j
                 (path ++ [loc_at locs (IndexToNode mgr i)])
           end
       end.

(** [solve_vrp].  The loop gets as many turns as there are indices below
    the end index: a route that has not ended by then has come back to an
    index it has left already, and never ends ([read_path_enough_fuel]). *)
Definition solve_vrp (w : world) (depot : coord) (passengers : list Passenger)
  : result (option Assignment * list coord) :=
  let (locs, pairs) := build_nodes depot passengers in
  let model := routing_model locs pairs in
  let mgr := manager model in
  match SolveWithParameters w model PARALLEL_CHEAPEST_INSERTION with
  | Some solution =>
      path <- read_path mgr locs solution (num_nodes mgr) (Start mgr) [] ;;
      Ret (Some solution, path)
  | None => Ret (None, [])
  end.

(** *** [update_system] *)

(** The name shown for one coordinate of the route. *)
Definition stop_name (st : SessionState) (c : coord) : string :=
  if coord_eqb c (depot st) then "차고지"
  else match find (fun s => coord_eqb (coords s) c) (nearby_stops st) with
       | Some s => name s
       | None => "정류장"
       end.

Definition update_system (w : world) (st : SessionState) : run :=
  match passengers st with
  | [] =>
      {| state_after :=
           set_metrics (0%R, 0%R) (set_summary [] (set_current_route_path None st));
         calls := [];
         ending := Ret tt |}
  | _ :: _ =>
      let called := [CallOptimizer (depot st) (passengers st)] in
      match solve_vrp w (depot st) (passengers st) with
      | Raise e => {| state_after := st; calls := called; ending := Raise e |}
      | Diverge => {| state_after := st; calls := called; ending := Diverge |}
      | Ret (None, _) => {| state_after := st; calls := called; ending := Ret tt |}
      | Ret (Some _, path_coords) =>
          let called := called ++ [CallRoadService path_coords] in
          match get_osrm_data w path_coords with
          | Raise e => {| state_after := st; calls := called; ending := Raise e |}
          | Diverge => {| state_after := st; calls := called; ending := Diverge |}
          | Ret (road, dist, dur) =>
              let st1 := set_current_route_path (Some road) st in
              match py_truediv dist 1000, py_truediv dur 60 with
              | Ret km, Ret minutes =>
                  let st2 := set_metrics (km, minutes) st1 in
                  let names := map (stop_name st2) path_coords in
                  {| state_after := set_summary names st2;
                     calls := called;
                     ending := Ret tt |}
              | Raise e, _ => {| state_after := st1; calls := called; ending := Raise e |}
              | Diverge, _ => {| state_after := st1; calls := called; ending := Diverge |}
              | Ret _, Raise e =>
                  {| state_after := st1; calls := called; ending := Raise e |}
              | Ret _, Diverge =>
                  {| state_after := st1; calls := called; ending := Diverge |}
              end
          end
      end
  end.

(** *** The map click of [main] *)

(** [min(items, key=key)] on a list with first element [best]: the first
    of the items with the least key. *)
Fixpoint min_by {A : Type} (key : A -> Z) (best : A) (items : list A) : A :=
  match items with
  | [] => best
  | x :: items' => min_by key (if (key x <? key best)%Z then x else best) items'
  end.

Definition py_min {A : Type} (key : A -> Z) (items : list A) : result A :=
  match items with
  | [] => Raise ValueError
  | x :: items' => Ret (min_by key x items')
  end.

(** The branch ['pass'] of the click: the stop nearest to [pos] becomes the
    pending pickup, or closes the pending request. *)
Definition pick_passenger (w : world) (pos : coord) (st : SessionState) : run :=
  match py_min (fun x => distance pos (coords x)) (nearby_stops st) with
  | Raise e => {| state_after := st; calls := []; ending := Raise e |}
  | Diverge => {| state_after := st; calls := []; ending := Diverge |}
  | Ret target =>
      match temp_p st with
      | None =>
          {| state_after := set_temp_p (Some target) st; calls := []; ending := Ret tt |}
      | Some pickup =>
          let request := {| start_stop := pickup; end_stop := target |} in
          let st1 := set_passengers (passengers st ++ [request]) st in
          update_system w (set_temp_p None st1)
      end
  end.

(** What [main] does with the position last clicked on the map. *)
Definition on_click (w : world) (pos : coord) (st : SessionState) : run :=
  let fresh := match last_click st with
               | Some c => negb (coord_eqb pos c)
               | None => true
               end in
  if fresh then
    let st1 := set_last_click (Some pos) st in
    match nearby_stops st1 with
    | [] => {| state_after := st1; calls := []; ending := Ret tt |}
    | _ :: _ =>
        match mode st1 with
        | mode_depot => update_system w (set_depot pos st1)
        | mode_pass => pick_passenger w pos st1
        | idle => {| state_after := st1; calls := []; ending := Ret tt |}
        end
    end
  else {| state_after := st; calls := []; ending := Ret tt |}.

(** *** The map click, with [get_distance] as the interpreter runs it *)

(** [get_distance] on the doubles of two coordinates: a number of
    metres, or the [ValueError] of [math.sqrt] (see [Ieee.get_distance]). *)
Variable get_distance_run : coord -> coord -> result Z.

(** [min(items, key=key)] with a key that can raise: the key of each item
    is computed once, in the order of the items, and compared with the
    least key so far; the first exception ends the call. *)
Fixpoint min_by_run {A : Type} (key : A -> result Z) (best : A) (kbest : Z)
    (items : list A) : result A :=
  match items with
  | [] => Ret best
  | x :: items' =>
      k <- key x ;;
      if (k <? kbest)%Z then min_by_run key x k items'
      else min_by_run key best kbest items'
  end.

Definition py_min_run {A : Type} (key : A -> result Z) (items : list A) : result A :=
  match items with
  | [] => Raise ValueError
  | x :: items' => k <- key x ;; min_by_run key x k items'
  end.

(** The branch ['pass'] of the click (lines 180 to 185). *)
Definition pick_passenger_run (w : world) (pos : coord) (st : SessionState) : run :=
  match py_min_run (fun x => get_distance_run pos (coords x)) (nearby_stops st) with
  | Raise e => {| state_after := st; calls := []; ending := Raise e |}
  | Diverge => {| state_after := st; calls := []; ending := Diverge |}
  | Ret target =>
      match temp_p st with
      | None =>
          {| state_after := set_temp_p (Some target) st; calls := []; ending := Ret tt |}
      | Some pickup =>
          let request := {| start_stop := pickup; end_stop := target |} in
          let st1 := set_passengers (passengers st ++ [request]) st in
          update_system w (set_temp_p None st1)
      end
  end.

(** What [main] does with the position last clicked on the map (lines 171
    to 185). *)
Definition on_click_run (w : world) (pos : coord) (st : SessionState) : run :=
  let fresh := match last_click st with
               | Some c => negb (coord_eqb pos c)
               | None => true
               end in
  if fresh then
    let st1 := set_last_click (Some pos) st in
    match nearby_stops st1 with
    | [] => {| state_after := st1; calls := []; ending := Ret tt |}
    | _ :: _ =>
        match mode st1 with
        | mode_depot => update_system w (set_depot pos st1)
        | mode_pass => pick_passenger_run w pos st1
        | idle => {| state_after := st1; calls := []; ending := Ret tt |}
        end
    end
  else {| state_after := st; calls := []; ending := Ret tt |}.

End Program.

(** ** [get_distance] on IEEE-754 doubles *)

Module Ieee.

Import PrimFloat.

Local Open Scope float_scope.

Section Libm.

(** The functions of the C library behind [math.sin], [math.cos],
    [math.atan2] and the float power. *)
Variables libm_sin libm_cos : float -> float.
Variable libm_atan2 : float -> float -> float.
Variable libm_pow : float -> float -> float.

(** [math.pi] *)
Definition pi : float := 0x1.921fb54442d18p+1.

(** [math.radians(x)] is [x * (pi / 180)]. *)
Definition radians (x : float) : float := x * (pi / 180).

(** The one-argument functions of [math]: the result of the C function,
    and [ValueError] when it is not a number although the argument is. *)
Definition math_1 (f : float -> float) (x : float) : result float :=
  let r := f x in
  if is_nan r && negb (is_nan x) then Raise ValueError else Ret r.

Definition math_sin : float -> result float := math_1 libm_sin.
Definition math_cos : float -> result float := math_1 libm_cos.
Definition math_sqrt : float -> result float := math_1 sqrt.

(** [x ** 2] on a float. *)
Definition py_pow2 (x : float) : result float :=
  let r := libm_pow x 2 in
  if is_infinity r && negb (is_infinity x) then Raise OverflowError else Ret r.

(** [int(x)]: no integer for a NaN or an infinity, else truncation toward
    zero. *)
Definition py_int (x : float) : result Z :=
  match FloatOps.Prim2SF x with
  | SpecFloat.S754_nan => Raise ValueError
  | SpecFloat.S754_infinity _ => Raise OverflowError
  | SpecFloat.S754_zero _ => Ret 0%Z
  | SpecFloat.S754_finite sign m e =>
      let magnitude := match e with
                       | Zneg k => Z.shiftr (Zpos m) (Zpos k)
                       | _ => Z.shiftl (Zpos m) e
                       end in
      Ret (if sign then - magnitude else magnitude)%Z
  end.

Definition get_distance (lat1 lon1 lat2 lon2 : float) : result Z :=
  let R := 6371000 in
  let phi1 := radians lat1 in
  let phi2 := radians lat2 in
  let dphi := radians (lat2 - lat1) in
  let dlambda := radians (lon2 - lon1) in
  s1 <- math_sin (dphi / 2) ;;
  p1 <- py_pow2 s1 ;;
  c1 <- math_cos phi1 ;;
  c2 <- math_cos phi2 ;;
  s2 <- math_sin (dlambda / 2) ;;
  p2 <- py_pow2 s2 ;;
  let a := p1 + c1 * c2 * p2 in
  q1 <- math_sqrt a ;;
  q2 <- math_sqrt (1 - a) ;;
  py_int (2 * R * libm_atan2 q1 q2).

End Libm.

(** The results of glibc 2.36 at the arguments that [get_distance] gives it
    for the pair (37.6073, 126.75), (-37.6073, -53.25): a stop of the
    catalog area and the point of the globe opposite to it. *)
Definition glibc_at_antipode (libm_sin libm_cos : float -> float)
    (libm_pow : float -> float -> float) : Prop :=
  libm_sin (-0x1.500fe30ef28c7p-1) = -0x1.38722d64bbac7p-1 /\
  libm_pow (-0x1.38722d64bbac7p-1) 2 = 0x1.7d568191ff381p-2 /\
  libm_cos 0x1.500fe30ef28c7p-1 = 0x1.959ccc4ab5a25p-1 /\
  libm_cos (-0x1.500fe30ef28c7p-1) = 0x1.959ccc4ab5a25p-1 /\
  libm_sin (-0x1.921fb54442d18p+0) = -1 /\
  libm_pow (-1) 2 = 1.

(** A table with those results, for arguments that are not in it the
    argument itself. *)
Definition table_sin (x : float) : float :=
  if x =? -0x1.500fe30ef28c7p-1 then -0x1.38722d64bbac7p-1
  else if x =? -0x1.921fb54442d18p+0 then -1 else x.

Definition table_cos (x : float) : float :=
  if abs x =? 0x1.500fe30ef28c7p-1 then 0x1.959ccc4ab5a25p-1 else 1.

Definition table_pow (x y : float) : float :=
  if x =? -0x1.38722d64bbac7p-1 then 0x1.7d568191ff381p-2 else x * x.

Definition table_atan2 (y x : float) : float := y.

End Ieee.

(** ** The loop of [solve_vrp], step by step *)

(** The loop stops within [fuel] turns: at an end index, or at an index
    for which the solution has no value. *)
Fixpoint halts (n : nat) (a : Assignment) (fuel i : nat) : bool :=
  if n <=? i then true
  else match fuel with
       | O => false
       | S fuel' =>
           match Value a i with
           | None => true
           | Some j => halts n a fuel' j
           end
       end.

(** The indices at which the loop makes a turn. *)
Fixpoint turns (n : nat) (a : Assignment) (fuel i : nat) : list nat :=
  if n <=? i then []
  else match fuel with
       | O => []
       | S fuel' =>
           match Value a i with
           | None => [i]
           | Some j => i :: turns n a fuel' j
           end
       end.

(** ** Names for the statements *)

(** The two coordinates that a request adds to the route. *)
Definition stops_of (p : Passenger) : list coord :=
  [coords (start_stop p); coords (end_stop p)].

(** The contract of the solver: what it returns is a solution of the
    model it was given. *)
Definition solver_sound (world : Type)
    (solve : world -> RoutingModel -> FirstSolutionStrategy -> option Assignment) : Prop :=
  forall w m p a, solve w m p = Some a -> feasibleb m a = true.

(** The solver does not give up on a model of one node that has a
    solution. *)
Definition solves_single_node (world : Type)
    (solve : world -> RoutingModel -> FirstSolutionStrategy -> option Assignment) : Prop :=
  forall w m p a,
    num_nodes (manager m) = 1 -> feasibleb m a = true -> solve w m p <> None.

(** [x] stands in [path] at an earlier position than [y]. *)
Definition before (x y : coord) (path : list coord) : Prop :=
  exists i j, i < j /\ nth_error path i = Some x /\ nth_error path j = Some y.

(** A solver for the examples: it proposes the nodes in the order of their
    numbers and checks the proposal. *)
Definition sequential_solver (w : unit) (m : RoutingModel) (p : FirstSolutionStrategy)
  : option Assignment :=
  let a := seq 1 (num_nodes (manager m)) in
  if feasibleb m a then Some a else None.

(** A network that is down, a road service that finds no route, and a
    decoder for the examples. *)
Definition network_down (w : unit) (locs : list (R * R)) : result json :=
  Raise ConnectionError.

Definition no_route (w : unit) (locs : list (R * R)) : result json :=
  Ret (JObj [("code"%string, JStr "NoRoute");
             ("message"%string, JStr "Impossible route between points")]).

Definition decode_nothing (geometry : json) : result (list coord) :=
  match geometry with
  | JStr _ => Ret []
  | _ => Raise TypeError
  end.

(** The routing model that [solve_vrp] hands to the solver. *)
Definition model_of (depot : coord) (passengers : list Passenger) : RoutingModel :=
  let (locs, pairs) := build_nodes depot passengers in
  routing_model locs pairs.

(** ** Places for the examples: one meridian through the catalog area *)

Definition depot_goyang : coord := (37.66%R, 126.75%R).
Definition depot_far : coord := (35.66%R, 126.75%R).
Definition stop_a : Stop := {| name := "A"; coords := (37.67%R, 126.75%R) |}.
Definition stop_b : Stop := {| name := "B"; coords := (37.68%R, 126.75%R) |}.
Definition request_ab : Passenger := {| start_stop := stop_a; end_stop := stop_b |}.

(** A session with a route plan on display, for the examples. *)
Definition session_goyang : SessionState :=
  {| depot := depot_goyang;
     passengers := [request_ab];
     nearby_stops := [stop_a; stop_b];
     temp_p := None;
     current_route_path := Some [depot_goyang; coords stop_a; coords stop_b; depot_goyang];
     summary := ["차고지"; "A"; "B"; "차고지"]%string;
     metrics := (5.6%R, 9%R);
     last_click := Some (coords stop_b);
     mode := mode_pass |}.

(** A run of [get_distance] that raises nothing and loses nothing to
    rounding, for the examples. *)
Definition get_distance_exact (p q : coord) : result Z := Ret (distance p q).

(** ** The rest of [main]: the start of a session, the buttons *)

(** The session state that [main] creates on its first run, with the
    stops that [fetch_stops_goyang] returned. *)
Definition initial_state (stops : list Stop) : SessionState :=
  {| depot := (37.661545%R, 126.747219%R);
     passengers := [];
     nearby_stops := stops;
     temp_p := None;
     current_route_path := None;
     summary := [];
     metrics := (0%R, 0%R);
     last_click := None;
     mode := idle |}.

Definition set_mode (m : Mode) (st : SessionState) : SessionState :=
  {| depot := depot st; passengers := passengers st; nearby_stops := nearby_stops st;
     temp_p := temp_p st; current_route_path := current_route_path st;
     summary := summary st; metrics := metrics st; last_click := last_click st;
     mode := m |}.

(** The two mode buttons. *)
Definition press_edit_depot (st : SessionState) : SessionState := set_mode mode_depot st.
Definition press_add_passenger (st : SessionState) : SessionState := set_mode mode_pass st.

(** The reset button: [session_state.update] with six of the keys. *)
Definition press_reset (st : SessionState) : SessionState :=
  {| depot := depot st;
     passengers := [];
     nearby_stops := nearby_stops st;
     temp_p := None;
     current_route_path := None;
     summary := [];
     metrics := (0%R, 0%R);
     last_click := last_click st;
     mode := idle |}.

(** [items.pop(i)] for an index that is not negative: the list without its
    [i]-th item, [IndexError] past the end. *)
Definition py_pop {A : Type} (i : nat) (items : list A) : result (list A) :=
  if i <? length items then Ret (firstn i items ++ skipn (S i) items)
  else Raise IndexError.

Section Buttons.

Variable world : Type.
Variable SolveWithParameters :
  world -> RoutingModel -> FirstSolutionStrategy -> option Assignment.
Variable http_get_json : world -> list (R * R) -> result json.
Variable polyline_decode : json -> result (list coord).

(** The delete button of the [i]-th passenger:
    [passengers.pop(i); update_system()]. *)
Definition delete_passenger (w : world) (i : nat) (st : SessionState) : run :=
  match py_pop i (passengers st) with
  | Ret ps =>
      update_system SolveWithParameters http_get_json polyline_decode w
        (set_passengers ps st)
  | Raise e => {| state_after := st; calls := []; ending := Raise e |}
  | Diverge => {| state_after := st; calls := []; ending := Diverge |}
  end.

End Buttons.

(** ** [fetch_stops_goyang] *)

(** A stop as the catalog provider describes it: whatever JSON values the
    response holds for the name, the latitude and the longitude. *)
Record RawStop : Type := { raw_name : json; raw_coords : json * json }.

(** [v.get(k, default)]; no value ([None]) when [v] is not a dict, where
    Python raises [AttributeError]. *)
Definition dict_get (v : json) (k : string) (default : json) : option json :=
  match v with
  | JObj items =>
      match lookup k items with
      | Some x => Some x
      | None => Some default
      end
  | _ => None
  end.

(** [v[k]]; no value when Python raises. *)
Definition getitem_opt (v : json) (k : string) : option json :=
  match getitem_str v k with
  | Ret x => Some x
  | _ => None
  end.

(** The items that [for e in v] goes through; no value when [v] is not
    iterable. *)
Definition py_iter (v : json) : option (list json) :=
  match v with
  | JArr l => Some l
  | JStr s => Some (map (fun c => JStr (String c EmptyString)) (list_ascii_of_string s))
  | JObj items => Some (map (fun kv => JStr (fst kv)) items)
  | _ => None
  end.

(** The dict that the comprehension builds for one element. *)
Definition stop_of_element (e : json) : option RawStop :=
  match dict_get e "tags" (JObj []) with
  | None => None
  | Some tags =>
      match dict_get tags "name" (JStr "정류장") with
      | None => None
      | Some nm =>
          match getitem_opt e "lat", getitem_opt e "lon" with
          | Some lat, Some lon => Some {| raw_name := nm; raw_coords := (lat, lon) |}
          | _, _ => None
          end
      end
  end.

(** The comprehension: it stops at the first element that raises. *)
Fixpoint stops_of_elements (es : list json) : option (list RawStop) :=
  match es with
  | [] => Some []
  | e :: es' =>
      match stop_of_element e with
      | None => None
      | Some s =>
          match stops_of_elements es' with
          | None => None
          | Some ss => Some (s :: ss)
          end
      end
  end.

(** What the [try] computes from the decoded body. *)
Definition stops_of_response (data : json) : option (list RawStop) :=
  match dict_get data "elements" (JArr []) with
  | None => None
  | Some elements =>
      match py_iter elements with
      | None => None
      | Some es => stops_of_elements es
      end
  end.

Section Catalog.

Variable world : Type.

(** [requests.get(url, params={'data': query}, timeout=60)] followed by
    [r.json()]. *)
Variable overpass_get_json : world -> result json.

Definition fetch_stops_goyang (w : world) : result (list RawStop) :=
  match overpass_get_json w with
  | Ret data =>
      match stops_of_response data with
      | Some stops => Ret stops
      | None => Ret []
      end
  | Raise _ => Ret []
  | Diverge => Diverge
  end.

End Catalog.

(** The JSON values that Python divides: numbers, and booleans as 0 and
    1. *)
Definition is_number (v : json) : bool :=
  match v with
  | JNum _ | JBool _ => true
  | _ => false
  end.

(** A road service that answers with a route, one whose answer has a
    distance that is not a number, and catalog responses for the
    examples. *)
Definition one_route (w : unit) (locs : list (R * R)) : result json :=
  Ret (JObj [("routes"%string,
              JArr [JObj [("geometry"%string, JStr "_p~iF~ps|U");
                          ("distance"%string, JNum 5662);
                          ("duration"%string, JNum 540)]])]).

Definition text_distance (w : unit) (locs : list (R * R)) : result json :=
  Ret (JObj [("routes"%string,
              JArr [JObj [("geometry"%string, JStr "_p~iF~ps|U");
                          ("distance"%string, JStr "far");
                          ("duration"%string, JNum 60)]])]).

Definition element_ok : json :=
  JObj [("lat"%string, JNum 37.67); ("lon"%string, JNum 126.75);
        ("tags"%string, JObj [("name"%string, JStr "A")])].

Definition element_without_lon : json :=
  JObj [("lat"%string, JNum 37.68)].

Definition overpass_two (w : unit) : result json :=
  Ret (JObj [("elements"%string, JArr [element_ok; element_without_lon])]).

Definition overpass_one (w : unit) : result json :=
  Ret (JObj [("elements"%string, JArr [element_ok])]).

(** * Properties *)

(** ** The geo distance function *)

Section GeoFacts.

Local Open Scope R_scope.

Lemma sin_half_sq (x : R) : sin (x / 2) ^ 2 = (1 - cos x) / 2.
Proof.
  replace (cos x) with (cos (2 * (x / 2))) by (f_equal; field).
  rewrite cos_2a_sin. field.
Qed.

Lemma radians_minus (x y : R) : radians (x - y) = radians x - radians y.
Proof. unfold radians. ring. Qed.

Lemma sin_cos_sq (x : R) : sin x * sin x + cos x * cos x = 1.
Proof. pose proof (sin2_cos2 x) as H. unfold Rsqr in H. exact H. Qed.

(** The haversine term is half of one minus the dot product of the two
    unit vectors. *)
Lemma hav_dot (lat1 lon1 lat2 lon2 : R) :
  1 - 2 * hav lat1 lon1 lat2 lon2 = dot lat1 lon1 lat2 lon2.
Proof.
  unfold hav, dot, ux, uy, uz.
  rewrite !sin_half_sq, !radians_minus, !cos_minus.
  field.
Qed.

Lemma unit_norm (lat lon : R) :
  ux lat lon * ux lat lon + uy lat lon * uy lat lon + uz lat * uz lat = 1.
Proof.
  unfold ux, uy, uz.
  pose proof (sin_cos_sq (radians lat)) as H1.
  pose proof (sin_cos_sq (radians lon)) as H2.
  replace (cos (radians lat) * cos (radians lon) * (cos (radians lat) * cos (radians lon)) +
           cos (radians lat) * sin (radians lon) * (cos (radians lat) * sin (radians lon)) +
           sin (radians lat) * sin (radians lat))
    with (cos (radians lat) * cos (radians lat) *
          (sin (radians lon) * sin (radians lon) + cos (radians lon) * cos (radians lon)) +
          sin (radians lat) * sin (radians lat)) by ring.
  rewrite H2. lra.
Qed.

(** Cauchy-Schwarz in dimension three, from Lagrange's identity. *)
Lemma cauchy_schwarz3 (a1 a2 a3 b1 b2 b3 : R) :
  (a1 * b1 + a2 * b2 + a3 * b3) ^ 2 <=
  (a1 * a1 + a2 * a2 + a3 * a3) * (b1 * b1 + b2 * b2 + b3 * b3).
Proof.
  assert (H : (a1 * a1 + a2 * a2 + a3 * a3) * (b1 * b1 + b2 * b2 + b3 * b3)
              - (a1 * b1 + a2 * b2 + a3 * b3) ^ 2
              = (a1 * b2 - a2 * b1) ^ 2 + (a1 * b3 - a3 * b1) ^ 2 + (a2 * b3 - a3 * b2) ^ 2)
    by ring.
  pose proof (pow2_ge_0 (a1 * b2 - a2 * b1)).
  pose proof (pow2_ge_0 (a1 * b3 - a3 * b1)).
  pose proof (pow2_ge_0 (a2 * b3 - a3 * b2)).
  lra.
Qed.

Lemma dot_bound (lat1 lon1 lat2 lon2 : R) :
  -1 <= dot lat1 lon1 lat2 lon2 <= 1.
Proof.
  pose proof (cauchy_schwarz3 (ux lat1 lon1) (uy lat1 lon1) (uz lat1)
                (ux lat2 lon2) (uy lat2 lon2) (uz lat2)) as H.
  rewrite !unit_norm in H. fold (dot lat1 lon1 lat2 lon2) in H.
  assert (Hsq : dot lat1 lon1 lat2 lon2 ^ 2 <= 1) by lra.
  split; nra.
Qed.

Lemma hav_range (lat1 lon1 lat2 lon2 : R) :
  0 <= hav lat1 lon1 lat2 lon2 <= 1.
Proof.
  pose proof (hav_dot lat1 lon1 lat2 lon2).
  pose proof (dot_bound lat1 lon1 lat2 lon2).
  lra.
Qed.

(** In exact arithmetic neither square root of [get_distance] leaves its
    domain. *)
Lemma get_distance_total (lat1 lon1 lat2 lon2 : R) :
  get_distance_checked lat1 lon1 lat2 lon2 = Ret (get_distance lat1 lon1 lat2 lon2).
Proof.
  unfold get_distance_checked, get_distance, py_sqrt.
  pose proof (hav_range lat1 lon1 lat2 lon2) as [H0 H1].
  cbv zeta.
  destruct (Rlt_dec (hav lat1 lon1 lat2 lon2) 0) as [Hn | _]; [lra |].
  cbn [bind].
  destruct (Rlt_dec (1 - hav lat1 lon1 lat2 lon2) 0) as [Hn | _]; [lra |].
  reflexivity.
Qed.

(** The angle whose tangent is [sqrt a / sqrt (1 - a)]: twice that angle
    has cosine [1 - 2 a]. *)
Lemma half_angle (a : R) :
  0 <= a <= 1 ->
  0 <= atan2 (sqrt a) (sqrt (1 - a)) <= PI / 2 /\
  cos (2 * atan2 (sqrt a) (sqrt (1 - a))) = 1 - 2 * a.
Proof.
  intros [H0 H1]. unfold atan2.
  destruct (Rlt_dec 0 (sqrt (1 - a))) as [Hc | Hc].
  - assert (Ha1 : a < 1).
    { destruct (Rlt_dec a 1) as [Hlt | Hge]; [exact Hlt |].
      replace (1 - a) with 0 in Hc by lra. rewrite sqrt_0 in Hc. lra. }
    set (q := sqrt a / sqrt (1 - a)).
    assert (Hq0 : 0 <= q).
    { unfold q. apply Rmult_le_pos; [apply sqrt_pos |].
      left. apply Rinv_0_lt_compat. exact Hc. }
    assert (Hq2 : q * q = a / (1 - a)).
    { unfold q.
      replace (sqrt a / sqrt (1 - a) * (sqrt a / sqrt (1 - a)))
        with ((sqrt a * sqrt a) / (sqrt (1 - a) * sqrt (1 - a))) by (field; lra).
      rewrite !sqrt_sqrt by lra. reflexivity. }
    pose proof (atan_bound q) as [Hlo Hhi].
    assert (Ht0 : 0 <= atan q).
    { destruct Hq0 as [Hpos | Heq].
      - left. rewrite <- atan_0. apply atan_increasing. exact Hpos.
      - rewrite <- Heq, atan_0. lra. }
    split; [lra |].
    assert (Hcos : 0 < cos (atan q)) by (apply cos_gt_0; lra).
    pose proof (tan_atan q) as Htan. unfold tan in Htan.
    assert (Hsin : sin (atan q) = q * cos (atan q)).
    { rewrite <- Htan at 2. field. lra. }
    pose proof (sin_cos_sq (atan q)) as Hsc. rewrite Hsin in Hsc.
    assert (Hc2 : cos (atan q) * cos (atan q) = 1 - a).
    { assert (Hk : cos (atan q) * cos (atan q) * (1 + q * q) = 1) by lra.
      rewrite Hq2 in Hk.
      replace (1 + a / (1 - a)) with (/ (1 - a)) in Hk by (field; lra).
      apply (Rmult_eq_compat_r (1 - a)) in Hk.
      rewrite Rmult_assoc, Rinv_l in Hk by lra. lra. }
    rewrite cos_2a_cos. lra.
  - assert (Hz : sqrt (1 - a) = 0) by (pose proof (sqrt_pos (1 - a)); lra).
    assert (Ha1 : a = 1).
    { destruct (Req_dec_T a 1) as [He | Hne]; [exact He |].
      assert (0 < sqrt (1 - a)) by (apply sqrt_lt_R0; lra). lra. }
    subst a. rewrite sqrt_1.
    destruct (Rlt_dec (sqrt (1 - 1)) 0) as [Hneg | _]; [lra |].
    destruct (Rlt_dec 0 1) as [_ | Hbad]; [| lra].
    pose proof PI_RGT_0.
    split; [lra |].
    replace (2 * (PI / 2)) with PI by field. rewrite cos_PI. lra.
Qed.

(** The angle computed by the code lies in [0, PI] and its cosine is the
    dot product of the two unit vectors. *)
Lemma central_angle_spec (lat1 lon1 lat2 lon2 : R) :
  0 <= central_angle lat1 lon1 lat2 lon2 <= PI /\
  cos (central_angle lat1 lon1 lat2 lon2) = dot lat1 lon1 lat2 lon2.
Proof.
  unfold central_angle. cbv zeta.
  destruct (half_angle (hav_range lat1 lon1 lat2 lon2)) as [[Hlo Hhi] Hcos].
  rewrite Hcos, hav_dot. split; [lra | reflexivity].
Qed.

Lemma py_int_nonneg (x : R) : 0 <= x -> py_int x = Zfloor x.
Proof.
  intros Hx. unfold py_int. destruct (Rle_dec 0 x); [reflexivity | contradiction].
Qed.

Lemma get_distance_floor (lat1 lon1 lat2 lon2 : R) :
  get_distance lat1 lon1 lat2 lon2 =
  Zfloor (IZR R_earth * central_angle lat1 lon1 lat2 lon2).
Proof.
  unfold get_distance. cbv zeta.
  pose proof (central_angle_spec lat1 lon1 lat2 lon2) as [[Hlo _] _].
  unfold central_angle in *. cbv zeta in *.
  set (t := atan2 _ _) in *.
  replace (IZR (2 * R_earth) * t) with (IZR R_earth * (2 * t))
    by (rewrite mult_IZR; ring).
  apply py_int_nonneg. apply Rmult_le_pos; [| exact Hlo].
  unfold R_earth. apply IZR_le. lia.
Qed.

Lemma get_distance_nonneg (lat1 lon1 lat2 lon2 : R) :
  (0 <= get_distance lat1 lon1 lat2 lon2)%Z.
Proof.
  rewrite get_distance_floor.
  pose proof (central_angle_spec lat1 lon1 lat2 lon2) as [[Hlo _] _].
  apply Zfloor_lub. simpl. apply Rmult_le_pos; [| exact Hlo].
  unfold R_earth. apply IZR_le. lia.
Qed.

(** The Gram determinant of three vectors is a square. *)
Lemma gram3 (a1 a2 a3 b1 b2 b3 c1 c2 c3 : R) :
  let nA := a1 * a1 + a2 * a2 + a3 * a3 in
  let nB := b1 * b1 + b2 * b2 + b3 * b3 in
  let nC := c1 * c1 + c2 * c2 + c3 * c3 in
  let x := a1 * b1 + a2 * b2 + a3 * b3 in
  let y := b1 * c1 + b2 * c2 + b3 * c3 in
  let z := a1 * c1 + a2 * c2 + a3 * c3 in
  nA * nB * nC + 2 * x * y * z - nA * y ^ 2 - nB * z ^ 2 - nC * x ^ 2 =
  (a1 * (b2 * c3 - b3 * c2) - a2 * (b1 * c3 - b3 * c1) + a3 * (b1 * c2 - b2 * c1)) ^ 2.
Proof. cbv zeta. ring. Qed.

(** Three unit vectors: the dot products obey the spherical law behind
    the triangle inequality. *)
Lemma dot_gram (la1 lo1 la2 lo2 la3 lo3 : R) :
  let x := dot la1 lo1 la2 lo2 in
  let y := dot la2 lo2 la3 lo3 in
  let z := dot la1 lo1 la3 lo3 in
  (x * y - z) ^ 2 <= (1 - x ^ 2) * (1 - y ^ 2).
Proof.
  cbv zeta.
  pose proof (gram3 (ux la1 lo1) (uy la1 lo1) (uz la1)
                    (ux la2 lo2) (uy la2 lo2) (uz la2)
                    (ux la3 lo3) (uy la3 lo3) (uz la3)) as H.
  cbv zeta in H. rewrite !unit_norm in H.
  fold (dot la1 lo1 la2 lo2) in H.
  fold (dot la2 lo2 la3 lo3) in H.
  fold (dot la1 lo1 la3 lo3) in H.
  match type of H with _ = ?d ^ 2 => pose proof (pow2_ge_0 d) as Hd end.
  nra.
Qed.

(** The triangle inequality of the central angle. *)
Lemma central_angle_triangle (la1 lo1 la2 lo2 la3 lo3 : R) :
  central_angle la1 lo1 la3 lo3 <=
  central_angle la1 lo1 la2 lo2 + central_angle la2 lo2 la3 lo3.
Proof.
  pose proof (central_angle_spec la1 lo1 la2 lo2) as [[Ha0 Ha1] Hca].
  pose proof (central_angle_spec la2 lo2 la3 lo3) as [[Hb0 Hb1] Hcb].
  pose proof (central_angle_spec la1 lo1 la3 lo3) as [[Hg0 Hg1] Hcg].
  set (al := central_angle la1 lo1 la2 lo2) in *.
  set (be := central_angle la2 lo2 la3 lo3) in *.
  set (ga := central_angle la1 lo1 la3 lo3) in *.
  destruct (Rle_dec PI (al + be)) as [Hbig | Hsmall]; [lra |].
  apply Rnot_le_lt in Hsmall.
  destruct (Rle_dec ga (al + be)) as [Hok | Hno]; [exact Hok | exfalso].
  apply Rnot_le_lt in Hno.
  assert (Hlt : cos ga < cos (al + be)).
  { apply cos_decreasing_1; lra. }
  rewrite cos_plus, Hca, Hcb, Hcg in Hlt.
  pose proof (dot_gram la1 lo1 la2 lo2 la3 lo3) as Hgram. cbv zeta in Hgram.
  pose proof (sin_ge_0 al Ha0 Ha1) as Hsa.
  pose proof (sin_ge_0 be Hb0 Hb1) as Hsb.
  pose proof (sin_cos_sq al) as Hal. rewrite Hca in Hal.
  pose proof (sin_cos_sq be) as Hbe. rewrite Hcb in Hbe.
  set (x := dot la1 lo1 la2 lo2) in *.
  set (y := dot la2 lo2 la3 lo3) in *.
  set (z := dot la1 lo1 la3 lo3) in *.
  assert (Hprod : (sin al * sin be) ^ 2 = (1 - x ^ 2) * (1 - y ^ 2)).
  { replace ((sin al * sin be) ^ 2) with ((sin al * sin al) * (sin be * sin be)) by ring.
    replace (sin al * sin al) with (1 - x ^ 2) by lra.
    replace (sin be * sin be) with (1 - y ^ 2) by lra. reflexivity. }
  assert (Hp : 0 <= sin al * sin be) by (apply Rmult_le_pos; assumption).
  assert (Hgt : sin al * sin be < x * y - z) by lra.
  assert (Hsq : (sin al * sin be) ^ 2 < (x * y - z) ^ 2) by nra.
  lra.
Qed.

Lemma central_angle_of_cos (lat1 lon1 lat2 lon2 y : R) :
  0 <= y <= PI ->
  dot lat1 lon1 lat2 lon2 = cos y ->
  central_angle lat1 lon1 lat2 lon2 = y.
Proof.
  intros Hy Hdot.
  pose proof (central_angle_spec lat1 lon1 lat2 lon2) as [Hrange Hcos].
  apply cos_inj; [exact Hrange | exact Hy | congruence].
Qed.

Lemma radians_Rabs (x : R) : radians (Rabs x) = Rabs (radians x).
Proof.
  unfold radians. rewrite Rabs_mult.
  rewrite (Rabs_pos_eq (PI / 180)); [reflexivity |].
  pose proof PI_RGT_0. lra.
Qed.

Lemma cos_Rabs (x : R) : cos (Rabs x) = cos x.
Proof.
  unfold Rabs. destruct (Rcase_abs x); [apply cos_neg | reflexivity].
Qed.

(** Two points on one meridian: the angle is the difference of the
    latitudes. *)
Lemma central_angle_meridian (lat1 lat2 lon : R) :
  Rabs (lat2 - lat1) <= 180 ->
  central_angle lat1 lon lat2 lon = radians (Rabs (lat2 - lat1)).
Proof.
  intros Hd. apply central_angle_of_cos.
  - pose proof PI_RGT_0. pose proof (Rabs_pos (lat2 - lat1)).
    unfold radians. split; [apply Rmult_le_pos; lra |].
    replace PI with (180 * (PI / 180)) at 2 by field.
    apply Rmult_le_compat_r; lra.
  - rewrite <- hav_dot. unfold hav.
    replace (radians (lon - lon)) with 0 by (unfold radians; ring).
    replace (0 / 2) with 0 by field. rewrite sin_0, sin_half_sq.
    rewrite radians_Rabs, cos_Rabs. field.
Qed.

(** Two points on the equator: the angle is the difference of the
    longitudes. *)
Lemma central_angle_equator (lon1 lon2 : R) :
  Rabs (lon2 - lon1) <= 180 ->
  central_angle 0 lon1 0 lon2 = radians (Rabs (lon2 - lon1)).
Proof.
  intros Hd. apply central_angle_of_cos.
  - pose proof PI_RGT_0. pose proof (Rabs_pos (lon2 - lon1)).
    unfold radians. split; [apply Rmult_le_pos; lra |].
    replace PI with (180 * (PI / 180)) at 2 by field.
    apply Rmult_le_compat_r; lra.
  - rewrite <- hav_dot. unfold hav.
    replace (radians (0 - 0)) with 0 by (unfold radians; ring).
    replace (radians 0) with 0 by (unfold radians; ring).
    replace (0 / 2) with 0 by field. rewrite sin_0, cos_0, sin_half_sq.
    rewrite radians_Rabs, cos_Rabs. field.
Qed.

Lemma PI_gt_3 : 3 < PI.
Proof. pose proof PI2_3_2. lra. Qed.

(** A point is at distance zero from itself. *)
Lemma get_distance_same (lat lon : R) : get_distance lat lon lat lon = 0%Z.
Proof.
  rewrite get_distance_floor, central_angle_meridian.
  - replace (lat - lat) with 0 by ring. rewrite Rabs_R0.
    unfold radians. rewrite Rmult_0_l, Rmult_0_r. apply (ZfloorZ 0).
  - replace (lat - lat) with 0 by ring. rewrite Rabs_R0. lra.
Qed.

(** Bounds on the distance along a meridian, from [3 < PI <= 4]. *)
Lemma get_distance_meridian_bounds (lat1 lat2 lon : R) :
  Rabs (lat2 - lat1) <= 180 ->
  IZR R_earth * Rabs (lat2 - lat1) * 3 / 180 - 1 <= IZR (get_distance lat1 lon lat2 lon)
  /\ IZR (get_distance lat1 lon lat2 lon) <= IZR R_earth * Rabs (lat2 - lat1) * 4 / 180.
Proof.
  intros Hd. rewrite get_distance_floor, central_angle_meridian by exact Hd.
  pose proof (Rabs_pos (lat2 - lat1)) as Hp.
  set (d := Rabs (lat2 - lat1)) in *.
  pose proof (Zfloor_bound (IZR R_earth * radians d)) as [Hlo Hhi].
  pose proof PI_gt_3. pose proof PI_4.
  assert (HR : 0 < IZR R_earth) by (unfold R_earth; apply IZR_lt; lia).
  unfold radians in *.
  assert (H3 : IZR R_earth * d * 3 / 180 <= IZR R_earth * (d * (PI / 180))).
  { assert (0 <= IZR R_earth * d) by (apply Rmult_le_pos; lra). nra. }
  assert (H4 : IZR R_earth * (d * (PI / 180)) <= IZR R_earth * d * 4 / 180).
  { assert (0 <= IZR R_earth * d) by (apply Rmult_le_pos; lra). nra. }
  split; lra.
Qed.

Lemma get_distance_equator_bounds (lon1 lon2 : R) :
  Rabs (lon2 - lon1) <= 180 ->
  IZR R_earth * Rabs (lon2 - lon1) * 3 / 180 - 1 <= IZR (get_distance 0 lon1 0 lon2)
  /\ IZR (get_distance 0 lon1 0 lon2) <= IZR R_earth * Rabs (lon2 - lon1) * 4 / 180.
Proof.
  intros Hd. rewrite get_distance_floor, central_angle_equator by exact Hd.
  pose proof (Rabs_pos (lon2 - lon1)) as Hp.
  set (d := Rabs (lon2 - lon1)) in *.
  pose proof (Zfloor_bound (IZR R_earth * radians d)) as [Hlo Hhi].
  pose proof PI_gt_3. pose proof PI_4.
  assert (HR : 0 < IZR R_earth) by (unfold R_earth; apply IZR_lt; lia).
  unfold radians in *.
  assert (H3 : IZR R_earth * d * 3 / 180 <= IZR R_earth * (d * (PI / 180))).
  { assert (0 <= IZR R_earth * d) by (apply Rmult_le_pos; lra). nra. }
  assert (H4 : IZR R_earth * (d * (PI / 180)) <= IZR R_earth * d * 4 / 180).
  { assert (0 <= IZR R_earth * d) by (apply Rmult_le_pos; lra). nra. }
  split; lra.
Qed.

End GeoFacts.

(** ** Triangle consistency of [get_distance] (C9) *)

Section Triangle.

Local Open Scope R_scope.

Lemma Rabs_le_between (a b : R) : Rabs a <= b -> - b <= a <= b.
Proof. unfold Rabs. destruct (Rcase_abs a); lra. Qed.

Lemma haversine_m_angle (p q : coord) :
  haversine_m p q = IZR R_earth * central_angle (fst p) (snd p) (fst q) (snd q).
Proof.
  unfold haversine_m, central_angle. cbv zeta. rewrite mult_IZR. ring.
Qed.

Lemma haversine_m_nonneg (p q : coord) : 0 <= haversine_m p q.
Proof.
  rewrite haversine_m_angle.
  pose proof (central_angle_spec (fst p) (snd p) (fst q) (snd q)) as [[Hlo _] _].
  apply Rmult_le_pos; [| exact Hlo]. unfold R_earth. apply IZR_le. lia.
Qed.

(** The exact values obey the triangle inequality. *)
Lemma haversine_m_triangle (A B C : coord) :
  haversine_m A C <= haversine_m A B + haversine_m B C.
Proof.
  rewrite !haversine_m_angle.
  pose proof (central_angle_triangle (fst A) (snd A) (fst B) (snd B) (fst C) (snd C)).
  assert (HR : 0 < IZR R_earth) by (unfold R_earth; apply IZR_lt; lia).
  nra.
Qed.

(** [int] takes less than one metre away, and adds nothing above zero. *)
Lemma py_int_above (x : R) : x - 1 < IZR (py_int x).
Proof.
  unfold py_int. destruct (Rle_dec 0 x) as [Hx | Hx].
  - pose proof (Zfloor_bound x). lra.
  - pose proof (Zceil_bound x). lra.
Qed.

Lemma py_int_below (x : R) : IZR (py_int x) <= Rmax x 0.
Proof.
  unfold py_int. destruct (Rle_dec 0 x) as [Hx | Hx].
  - pose proof (Zfloor_bound x). rewrite Rmax_left by exact Hx. lra.
  - apply Rnot_le_lt in Hx. rewrite Rmax_right by lra.
    apply IZR_le. replace 0%Z with (Zceil 0) by (apply Zceil_eq; simpl; lra).
    apply Zceil_le. lra.
Qed.

(** The exact evaluation is one of the evaluations within any tolerance. *)
Lemma get_distance_within_exact (eps : R) (p q : coord) :
  0 <= eps -> get_distance_within eps p q (distance p q).
Proof.
  intros Heps. exists (haversine_m p q). split; [| reflexivity].
  unfold computed_within. rewrite Rminus_diag, Rabs_R0. exact Heps.
Qed.

(** On the equator the exact value is the difference of the longitudes,
    in metres. *)
Lemma haversine_m_equator (lon1 lon2 : R) :
  Rabs (lon2 - lon1) <= 180 ->
  haversine_m (0, lon1) (0, lon2) = IZR R_earth * radians (Rabs (lon2 - lon1)).
Proof.
  intros Hd. rewrite haversine_m_angle. cbn [fst snd].
  rewrite central_angle_equator by exact Hd. reflexivity.
Qed.

Lemma equator_bounds (lon1 lon2 : R) :
  Rabs (lon2 - lon1) <= 180 ->
  IZR R_earth * Rabs (lon2 - lon1) * 3 / 180 <= haversine_m (0, lon1) (0, lon2)
  /\ haversine_m (0, lon1) (0, lon2) <= IZR R_earth * Rabs (lon2 - lon1) * 4 / 180.
Proof.
  intros Hd. rewrite haversine_m_equator by exact Hd.
  pose proof (Rabs_pos (lon2 - lon1)) as Hp.
  set (d := Rabs (lon2 - lon1)) in *.
  pose proof PI_gt_3. pose proof PI_4.
  assert (HR : 0 < IZR R_earth) by (unfold R_earth; apply IZR_lt; lia).
  unfold radians.
  assert (0 <= IZR R_earth * d) by (apply Rmult_le_pos; lra).
  split; nra.
Qed.

Lemma py_int_0 (x : R) : -1 < x < 1 -> py_int x = 0%Z.
Proof.
  intros [Hlo Hhi]. unfold py_int. destruct (Rle_dec 0 x) as [Hx | Hx].
  - apply Zfloor_eq. simpl. lra.
  - apply Rnot_le_lt in Hx. apply Zceil_eq. simpl. lra.
Qed.

Lemma py_int_1 (x : R) : 1 <= x < 2 -> py_int x = 1%Z.
Proof.
  intros [Hlo Hhi]. unfold py_int. destruct (Rle_dec 0 x) as [Hx | Hx]; [| lra].
  apply Zfloor_eq. simpl. lra.
Qed.

(** Two points of the equator 0.000006 degrees apart are between 0.63 m
    and 0.85 m apart: every evaluation within 0.1 m truncates to 0. *)
Lemma equator_step_0 (lon1 lon2 : R) (d : Z) :
  Rabs (lon2 - lon1) = 6 / 1000000 ->
  get_distance_within (1 / 10) (0, lon1) (0, lon2) d -> d = 0%Z.
Proof.
  intros Hd (x & Hx & ->).
  assert (Hle : Rabs (lon2 - lon1) <= 180) by lra.
  pose proof (equator_bounds lon1 lon2 Hle) as [Hlo Hhi].
  rewrite Hd in Hlo, Hhi. unfold R_earth in Hlo, Hhi.
  unfold computed_within in Hx. apply Rabs_le_between in Hx.
  apply py_int_0. lra.
Qed.

(** 0.000012 degrees apart they are between 1.27 m and 1.70 m apart:
    every evaluation within 0.1 m truncates to 1. *)
Lemma equator_step_1 (lon1 lon2 : R) (d : Z) :
  Rabs (lon2 - lon1) = 12 / 1000000 ->
  get_distance_within (1 / 10) (0, lon1) (0, lon2) d -> d = 1%Z.
Proof.
  intros Hd (x & Hx & ->).
  assert (Hle : Rabs (lon2 - lon1) <= 180) by lra.
  pose proof (equator_bounds lon1 lon2 Hle) as [Hlo Hhi].
  rewrite Hd in Hlo, Hhi. unfold R_earth in Hlo, Hhi.
  unfold computed_within in Hx. apply Rabs_le_between in Hx.
  apply py_int_1. lra.
Qed.

(** C9, counterexample: three points on the equator, 0.67 m apart.  Each
    short leg truncates to 0 m, the long leg (1.33 m) to 1 m: in exact
    arithmetic, and in every evaluation whose rounding errors stay below
    0.1 m. *)
Lemma get_distance_triangle_counterexample :
  let A : coord := (0, 0) in
  let B : coord := (0, 6 / 1000000) in
  let C : coord := (0, 12 / 1000000) in
  (distance A B = 0%Z /\ distance B C = 0%Z /\ distance A C = 1%Z /\
   ~ (distance A C <= distance A B + distance B C)%Z) /\
  (forall ab bc ac : Z,
     get_distance_within (1 / 10) A B ab ->
     get_distance_within (1 / 10) B C bc ->
     get_distance_within (1 / 10) A C ac ->
     ab = 0%Z /\ bc = 0%Z /\ ac = 1%Z /\ ~ (ac <= ab + bc)%Z).
Proof.
  cbv zeta.
  assert (Hall : forall ab bc ac : Z,
     get_distance_within (1 / 10) (0, 0) (0, 6 / 1000000) ab ->
     get_distance_within (1 / 10) (0, 6 / 1000000) (0, 12 / 1000000) bc ->
     get_distance_within (1 / 10) (0, 0) (0, 12 / 1000000) ac ->
     ab = 0%Z /\ bc = 0%Z /\ ac = 1%Z /\ ~ (ac <= ab + bc)%Z).
  { intros ab bc ac Hab Hbc Hac.
    assert (H1 : ab = 0%Z).
    { apply (@equator_step_0 0 (6 / 1000000) ab); [rewrite Rabs_pos_eq; lra | exact Hab]. }
    assert (H2 : bc = 0%Z).
    { apply (@equator_step_0 (6 / 1000000) (12 / 1000000) bc);
        [rewrite Rabs_pos_eq; lra | exact Hbc]. }
    assert (H3 : ac = 1%Z).
    { apply (@equator_step_1 0 (12 / 1000000) ac); [rewrite Rabs_pos_eq; lra | exact Hac]. }
    subst. repeat split; lia. }
  split; [| exact Hall].
  apply Hall; apply get_distance_within_exact; lra.
Qed.

(** One metre of slack is not enough once the evaluation rounds: with
    exact values of 1 m, 2 m and 3 m, legs that come out just below 1 m
    and 2 m truncate to 0 and 1, and the whole to 3. *)
Lemma get_distance_triangle_rounding (eps : R) :
  0 < eps ->
  let b := 180 / (PI * IZR R_earth) in
  let A : coord := (0, 0) in
  let B : coord := (0, b) in
  let C : coord := (0, 3 * b) in
  exists ab bc ac : Z,
    get_distance_within eps A B ab /\
    get_distance_within eps B C bc /\
    get_distance_within eps A C ac /\
    (ac > ab + bc + 1)%Z.
Proof.
  intros Heps. cbv zeta.
  pose proof PI_gt_3 as Hpi.
  assert (HR : IZR R_earth = 6371000) by reflexivity.
  set (b := 180 / (PI * IZR R_earth)).
  assert (Hb : 0 < b).
  { unfold b. apply Rdiv_lt_0_compat; [lra |]. rewrite HR. nra. }
  assert (Hb1 : IZR R_earth * radians b = 1).
  { unfold b, radians. rewrite HR. field. lra. }
  assert (Hsmall : 3 * b <= 180).
  { unfold b. rewrite HR.
    apply (Rmult_le_reg_r (PI * 6371000)); [nra |].
    replace (3 * (180 / (PI * 6371000)) * (PI * 6371000)) with 540 by (field; lra).
    nra. }
  assert (Hab : haversine_m (0, 0) (0, b) = 1).
  { rewrite haversine_m_equator; replace (b - 0) with b by ring;
      rewrite Rabs_pos_eq by lra; [exact Hb1 | lra]. }
  assert (Hbc : haversine_m (0, b) (0, 3 * b) = 2).
  { rewrite haversine_m_equator; replace (3 * b - b) with (2 * b) by ring;
      rewrite Rabs_pos_eq by lra; [| lra].
    unfold radians in *. lra. }
  assert (Hac : haversine_m (0, 0) (0, 3 * b) = 3).
  { rewrite haversine_m_equator; replace (3 * b - 0) with (3 * b) by ring;
      rewrite Rabs_pos_eq by lra; [| lra].
    unfold radians in *. lra. }
  set (e := Rmin eps (1 / 2)).
  assert (He : 0 < e <= eps /\ e <= 1 / 2).
  { unfold e. pose proof (Rmin_l eps (1 / 2)). pose proof (Rmin_r eps (1 / 2)).
    split; [split; [apply Rmin_glb_lt; lra | lra] | lra]. }
  exists (py_int (1 - e)), (py_int (2 - e)), (py_int 3).
  assert (H0 : py_int (1 - e) = 0%Z) by (apply py_int_0; lra).
  assert (H1 : py_int (2 - e) = 1%Z) by (apply py_int_1; lra).
  assert (H3 : py_int 3 = 3%Z).
  { unfold py_int. destruct (Rle_dec 0 3) as [_ | Hn]; [| lra]. apply (ZfloorZ 3). }
  repeat split.
  - exists (1 - e). split; [| reflexivity]. unfold computed_within.
    rewrite Hab. apply Rabs_le. lra.
  - exists (2 - e). split; [| reflexivity]. unfold computed_within.
    rewrite Hbc. apply Rabs_le. lra.
  - exists 3. split; [| reflexivity]. unfold computed_within.
    rewrite Hac. apply Rabs_le. lra.
  - rewrite H0, H1, H3. lia.
Qed.

(** C9, as amended: for every three coordinates A, B, C for which
    [get_distance] returns, with rounding errors of at most a third of a
    metre in the value that each call truncates,
    [get_distance(A, C)] is at most
    [get_distance(A, B) + get_distance(B, C)] plus two metres: one for the
    truncation to whole metres, one for a rounding across a whole metre. *)
Theorem get_distance_triangle (eps : R) (A B C : coord) (ab bc ac : Z) :
  3 * eps <= 1 ->
  get_distance_within eps A B ab ->
  get_distance_within eps B C bc ->
  get_distance_within eps A C ac ->
  (ac <= ab + bc + 2)%Z.
Proof.
  intros Heps (x & Hx & ->) (y & Hy & ->) (z & Hz & ->).
  unfold computed_within in *.
  apply Rabs_le_between in Hx. apply Rabs_le_between in Hy. apply Rabs_le_between in Hz.
  pose proof (haversine_m_triangle A B C) as Htri.
  pose proof (haversine_m_nonneg A B) as Hab.
  pose proof (haversine_m_nonneg B C) as Hbc.
  pose proof (haversine_m_nonneg A C) as Hac.
  pose proof (py_int_above x) as Hxl.
  pose proof (py_int_above y) as Hyl.
  pose proof (py_int_below z) as Hzu.
  assert (Hz0 : Rmax z 0 <= haversine_m A C + eps).
  { apply Rmax_lub; lra. }
  assert (Hlt : IZR (py_int z) < IZR (py_int x + py_int y + 3)).
  { rewrite !plus_IZR. lra. }
  apply lt_IZR in Hlt. lia.
Qed.

(** The amended statement on the example places, evaluated exactly. *)
Lemma get_distance_triangle_witness :
  (distance depot_goyang (coords stop_b) <=
   distance depot_goyang (coords stop_a) + distance (coords stop_a) (coords stop_b) + 2)%Z.
Proof.
  apply (@get_distance_triangle 0 depot_goyang (coords stop_a) (coords stop_b));
    [lra | apply get_distance_within_exact; lra
         | apply get_distance_within_exact; lra
         | apply get_distance_within_exact; lra].
Defined.

End Triangle.

(** ** [get_distance] on doubles (C4) *)

Section IeeeFacts.

Import PrimFloat.

Local Open Scope float_scope.

(** C4, evaluated where the code breaks the claim: for a stop at
    (37.6073, 126.75) and the opposite point of the globe the haversine term
    rounds to [1 + 2^-52], and [math.sqrt(1 - a)] raises [ValueError]. *)
Theorem get_distance_antipode_raises
    (libm_sin libm_cos : float -> float) (libm_atan2 libm_pow : float -> float -> float) :
  Ieee.glibc_at_antipode libm_sin libm_cos libm_pow ->
  Ieee.get_distance libm_sin libm_cos libm_atan2 libm_pow
    0x1.2cdbc01a36e2fp+5 0x1.fbp+6 (-0x1.2cdbc01a36e2fp+5) (-0x1.aap+5)
  = Raise ValueError.
Proof.
  intros (Hs1 & Hp1 & Hc1 & Hc2 & Hs2 & Hp2).
  vm_compute. rewrite Hs1.
  vm_compute. rewrite Hp1.
  vm_compute. rewrite Hc1.
  vm_compute. rewrite Hc2.
  vm_compute. rewrite Hs2.
  vm_compute. rewrite Hp2.
  vm_compute. reflexivity.
Qed.

Lemma get_distance_antipode_raises_witness :
  Ieee.get_distance Ieee.table_sin Ieee.table_cos Ieee.table_atan2 Ieee.table_pow
    0x1.2cdbc01a36e2fp+5 0x1.fbp+6 (-0x1.2cdbc01a36e2fp+5) (-0x1.aap+5)
  = Raise ValueError.
Proof.
  apply get_distance_antipode_raises.
  unfold Ieee.glibc_at_antipode. repeat split; vm_compute; reflexivity.
Defined.

End IeeeFacts.

(** ** The nodes of the routing model *)

Section Nodes.

Lemma build_nodes_from (ps : list Passenger) (locs0 : list coord) (pairs0 : list (nat * nat)) :
  fold_left add_request ps (locs0, pairs0) =
  (locs0 ++ flat_map stops_of ps,
   pairs0 ++ map (fun k => (length locs0 + 2 * k, length locs0 + 2 * k + 1))
                 (seq 0 (length ps))).
Proof.
  revert locs0 pairs0. induction ps as [| p ps IH]; intros locs0 pairs0.
  - cbn. now rewrite !app_nil_r.
  - cbn [fold_left add_request]. rewrite IH.
    cbn [flat_map stops_of length seq map]. f_equal.
    + rewrite <- !app_assoc. reflexivity.
    + rewrite <- app_assoc. f_equal. cbn [app]. f_equal.
      * f_equal; rewrite ?length_app; cbn [length]; lia.
      * rewrite <- seq_shift, map_map. apply map_ext. intros k.
        rewrite !length_app. cbn [length]. f_equal; lia.
Qed.

Lemma build_nodes_spec (depot : coord) (ps : list Passenger) :
  build_nodes depot ps =
  (depot :: flat_map stops_of ps,
   map (fun k => (2 * k + 1, 2 * k + 2)) (seq 0 (length ps))).
Proof.
  unfold build_nodes. rewrite build_nodes_from. cbn [app length]. f_equal.
  apply map_ext. intros k. f_equal; lia.
Qed.

Lemma length_stops (ps : list Passenger) :
  length (flat_map stops_of ps) = 2 * length ps.
Proof.
  induction ps as [| p ps IH]; [reflexivity |].
  cbn [flat_map stops_of length app]. rewrite IH. lia.
Qed.

(** The locations of the [k]-th request are at the nodes [2k+1] and
    [2k+2]. *)
Lemma loc_at_request (depot : coord) (ps : list Passenger) (k : nat) (p : Passenger) :
  nth_error ps k = Some p ->
  loc_at (depot :: flat_map stops_of ps) (2 * k + 1) = coords (start_stop p) /\
  loc_at (depot :: flat_map stops_of ps) (2 * k + 2) = coords (end_stop p).
Proof.
  unfold loc_at. revert k. induction ps as [| q ps IH]; intros k Hk.
  - destruct k; discriminate.
  - destruct k as [| k].
    + injection Hk as ->. split; reflexivity.
    + cbn [nth_error] in Hk. specialize (IH k Hk) as [IH1 IH2].
      replace (2 * S k + 1) with (S (S (2 * k + 1))) by lia.
      replace (2 * S k + 2) with (S (S (2 * k + 2))) by lia.
      replace (2 * k + 1) with (S (2 * k)) in IH1 by lia.
      replace (2 * k + 2) with (S (S (2 * k))) in IH2 by lia.
      replace (2 * k + 1) with (S (2 * k)) by lia.
      replace (2 * k + 2) with (S (S (2 * k))) by lia.
      cbn [flat_map stops_of app nth] in *. split; assumption.
Qed.

Lemma IndexToNode_lt (mgr : RoutingIndexManager) (i : nat) :
  depot_node mgr < num_nodes mgr -> IndexToNode mgr i < num_nodes mgr.
Proof.
  intros Hd. unfold IndexToNode. destruct (Nat.ltb_spec i (num_nodes mgr)); lia.
Qed.

End Nodes.

(** ** Routes and solutions *)

Section Routes.

Lemma follow_end (n : nat) (a : Assignment) (fuel i : nat) :
  n <= i -> follow n a fuel i = Some ([], i).
Proof.
  intros Hi. destruct fuel; cbn [follow]; destruct (Nat.leb_spec n i); try lia; reflexivity.
Qed.

Lemma follow_step (n : nat) (a : Assignment) (fuel i : nat) :
  i < n ->
  follow n a (S fuel) i =
  match Value a i with
  | None => None
  | Some j => match follow n a fuel j with
              | None => None
              | Some (r, e) => Some (i :: r, e)
              end
  end.
Proof.
  intros Hi. cbn [follow]. destruct (Nat.leb_spec n i); [lia | reflexivity].
Qed.

Lemma follow_stuck (n : nat) (a : Assignment) (i : nat) :
  i < n -> follow n a 0 i = None.
Proof.
  intros Hi. cbn [follow]. destruct (Nat.leb_spec n i); [lia | reflexivity].
Qed.

(** The shape of a route: its indices are below [n], its end is not, and
    it starts where the walk started. *)
Lemma follow_shape (n : nat) (a : Assignment) (fuel i : nat) (r : list nat) (e : nat) :
  follow n a fuel i = Some (r, e) ->
  Forall (fun x => x < n) r /\ n <= e /\ hd e r = i /\ length r <= fuel.
Proof.
  revert i r e. induction fuel as [| fuel IH]; intros i r e H.
  - destruct (Nat.lt_ge_cases i n) as [Hi | Hi].
    + rewrite follow_stuck in H by exact Hi. discriminate.
    + rewrite follow_end in H by exact Hi. injection H as <- <-.
      repeat split; [constructor | exact Hi | cbn; lia].
  - destruct (Nat.lt_ge_cases i n) as [Hi | Hi].
    + rewrite follow_step in H by exact Hi.
      destruct (Value a i) as [j |]; [| discriminate].
      destruct (follow n a fuel j) as [[r' e'] |] eqn:Hf; [| discriminate].
      injection H as <- <-. specialize (IH _ _ _ Hf) as (Hall & He & _ & Hlen).
      repeat split; [constructor; assumption | exact He | cbn; lia].
    + rewrite follow_end in H by exact Hi. injection H as <- <-.
      repeat split; [constructor | exact Hi | cbn; lia].
Qed.

(** The loop of [solve_vrp] reads the route that [follow] describes, and
    stops. *)
Lemma read_path_follow (mgr : RoutingIndexManager) (locs : list coord) (a : Assignment)
    (fuel i : nat) (r : list nat) (e : nat) (path : list coord) :
  follow (num_nodes mgr) a fuel i = Some (r, e) ->
  read_path mgr locs a fuel i path =
  Ret (path ++ map (fun k => loc_at locs (IndexToNode mgr k)) r
            ++ [loc_at locs (IndexToNode mgr e)]).
Proof.
  revert i r e path. induction fuel as [| fuel IH]; intros i r e path H.
  - destruct (Nat.lt_ge_cases i (num_nodes mgr)) as [Hi | Hi].
    + rewrite follow_stuck in H by exact Hi. discriminate.
    + rewrite follow_end in H by exact Hi. injection H as <- <-.
      cbn [read_path]. unfold IsEnd. destruct (Nat.leb_spec (num_nodes mgr) i); [| lia].
      reflexivity.
  - destruct (Nat.lt_ge_cases i (num_nodes mgr)) as [Hi | Hi].
    + rewrite follow_step in H by exact Hi.
      cbn [read_path]. unfold IsEnd. destruct (Nat.leb_spec (num_nodes mgr) i); [lia |].
      destruct (Value a i) as [j |]; [| discriminate].
      destruct (follow (num_nodes mgr) a fuel j) as [[r' e'] |] eqn:Hf; [| discriminate].
      injection H as <- <-. rewrite (IH _ _ _ _ Hf).
      cbn [map app]. rewrite <- app_assoc. reflexivity.
    + rewrite follow_end in H by exact Hi. injection H as <- <-.
      cbn [read_path]. unfold IsEnd. destruct (Nat.leb_spec (num_nodes mgr) i); [| lia].
      reflexivity.
Qed.

Lemma position_nth (i : nat) (r : list nat) (k : nat) :
  position i r = Some k -> nth_error r k = Some i.
Proof.
  revert k. induction r as [| j r IH]; intros k H; [discriminate |].
  cbn [position] in H. destruct (Nat.eqb_spec i j) as [-> | Hne].
  - injection H as <-. reflexivity.
  - destruct (position i r) as [k' |]; [| discriminate].
    injection H as <-. cbn [nth_error]. apply IH. reflexivity.
Qed.

Lemma precedesb_nth (p d : nat) (r : list nat) :
  precedesb p d r = true ->
  exists i j, i < j /\ nth_error r i = Some p /\ nth_error r j = Some d.
Proof.
  unfold precedesb. intros H.
  destruct (position p r) as [i |] eqn:Hp; [| discriminate].
  destruct (position d r) as [j |] eqn:Hd; [| discriminate].
  exists i, j. apply Nat.ltb_lt in H.
  repeat split; [exact H | apply position_nth; exact Hp | apply position_nth; exact Hd].
Qed.

Lemma nodupb_NoDup (l : list nat) : nodupb l = true -> NoDup l.
Proof.
  induction l as [| x l IH]; intros H; [constructor |].
  cbn [nodupb] in H. apply andb_true_iff in H as [Hx Hl].
  constructor; [| apply IH; exact Hl].
  intros Hin. apply negb_true_iff in Hx.
  assert (Hex : existsb (Nat.eqb x) l = true).
  { apply existsb_exists. exists x. split; [exact Hin | apply Nat.eqb_refl]. }
  congruence.
Qed.

(** What the checker guarantees. *)
Lemma feasibleb_inv (m : RoutingModel) (a : Assignment) :
  feasibleb m a = true ->
  exists r,
    follow (num_nodes (manager m)) a (num_nodes (manager m)) (Start (manager m))
      = Some (r, End (manager m)) /\
    length r = num_nodes (manager m) /\
    NoDup r /\
    Forall (fun c => (0 <= c <= dim_capacity (dimension m))%Z)
           (cumuls (dim_transit (dimension m)) 0 r (End (manager m))) /\
    Forall (fun pd => precedesb (fst pd) (snd pd) r = true) (pickup_deliveries m).
Proof.
  unfold feasibleb. cbv zeta. intros H.
  apply andb_true_iff in H as [_ H].
  destruct (follow _ a _ _) as [[r e] |] eqn:Hf; [| discriminate].
  repeat (apply andb_true_iff in H; destruct H as [H ?]).
  apply Nat.eqb_eq in H. subst e.
  exists r. repeat split.
  - match goal with Hl : (length r =? _) = true |- _ => apply Nat.eqb_eq in Hl; exact Hl end.
  - apply nodupb_NoDup. assumption.
  - apply Forall_forall. intros c Hc.
    match goal with
    | Hall : forallb _ (cumuls _ _ _ _) = true |- _ =>
        rewrite forallb_forall in Hall; specialize (Hall c Hc);
        apply andb_true_iff in Hall as [Hlo Hhi];
        apply Z.leb_le in Hlo; apply Z.leb_le in Hhi; lia
    end.
  - apply Forall_forall. intros pd Hpd.
    match goal with
    | Hall : forallb _ (pickup_deliveries m) = true |- _ =>
        rewrite forallb_forall in Hall; exact (Hall pd Hpd)
    end.
Qed.

(** A route that visits [n] different indices below [n] visits them
    all. *)
Lemma route_permutation (n : nat) (r : list nat) :
  length r = n -> NoDup r -> Forall (fun x => x < n) r ->
  Permutation r (seq 0 n).
Proof.
  intros Hlen Hnd Hall.
  apply NoDup_Permutation_bis.
  - exact Hnd.
  - rewrite length_seq. lia.
  - intros x Hx. apply in_seq. rewrite Forall_forall in Hall.
    specialize (Hall x Hx). lia.
Qed.

End Routes.

(** ** The turns of the loop are enough *)

Section Fuel.

Variables (n : nat) (a : Assignment).

Lemma halts_more (fuel i : nat) :
  halts n a fuel i = true ->
  forall fuel', fuel <= fuel' ->
    halts n a fuel' i = true /\ turns n a fuel' i = turns n a fuel i.
Proof.
  revert i. induction fuel as [| fuel IH]; intros i H fuel' Hle.
  - cbn [halts] in H. destruct (Nat.leb_spec n i) as [Hi | Hi]; [| discriminate].
    destruct fuel'; cbn [halts turns]; destruct (Nat.leb_spec n i); try lia; auto.
  - destruct fuel' as [| fuel']; [lia |].
    cbn [halts turns] in *. destruct (Nat.leb_spec n i) as [Hi | Hi]; [auto |].
    destruct (Value a i) as [j |]; [| auto].
    destruct (IH j H fuel' ltac:(lia)) as [H1 H2]. rewrite H1, H2. auto.
Qed.

Lemma turns_below (fuel i : nat) : Forall (fun x => x < n) (turns n a fuel i).
Proof.
  revert i. induction fuel as [| fuel IH]; intros i; cbn [turns];
    destruct (Nat.leb_spec n i) as [Hi | Hi]; try constructor.
  destruct (Value a i) as [j |]; constructor; auto.
Qed.

(** The loop, started again at an index it has reached, makes the rest of
    the turns. *)
Lemma turns_suffix (fuel i x : nat) :
  halts n a fuel i = true -> In x (turns n a fuel i) ->
  exists fuel1 pre,
    fuel1 <= fuel /\ halts n a fuel1 x = true /\
    turns n a fuel i = pre ++ turns n a fuel1 x.
Proof.
  revert i. induction fuel as [| fuel IH]; intros i H Hin.
  - cbn [turns] in Hin. destruct (n <=? i); destruct Hin.
  - cbn [halts turns] in H, Hin.
    destruct (Nat.leb_spec n i) as [Hi | Hi]; [destruct Hin |].
    destruct (Value a i) as [j |] eqn:Hv.
    + destruct Hin as [<- | Hin].
      * exists (S fuel), []. split; [lia |]. split; [| reflexivity].
        cbn [halts]. destruct (Nat.leb_spec n i); [lia |]. rewrite Hv. exact H.
      * destruct (IH j H Hin) as (fuel1 & pre & Hle & Hh & Heq).
        exists fuel1, (i :: pre). split; [lia |]. split; [exact Hh |].
        cbn [turns]. destruct (Nat.leb_spec n i); [lia |]. rewrite Hv, Heq. reflexivity.
    + destruct Hin as [<- | []].
      exists (S fuel), []. split; [lia |]. split; [| reflexivity].
      cbn [halts]. destruct (Nat.leb_spec n i); [lia |]. rewrite Hv. reflexivity.
Qed.

(** A loop that stops makes no turn twice at one index. *)
Lemma turns_NoDup (fuel i : nat) :
  halts n a fuel i = true -> NoDup (turns n a fuel i).
Proof.
  revert i. induction fuel as [| fuel IH]; intros i H.
  - cbn [turns]. destruct (n <=? i); constructor.
  - pose proof H as HS. cbn [halts] in H. cbn [turns].
    destruct (Nat.leb_spec n i) as [Hi | Hi]; [constructor |].
    destruct (Value a i) as [j |] eqn:Hv.
    + constructor; [| apply IH; exact H].
      intros Hin.
      destruct (@turns_suffix fuel j i H Hin) as (fuel1 & pre & Hle & Hh & Heq).
      destruct (@halts_more fuel1 i Hh (S fuel) ltac:(lia)) as [_ Hsame].
      rewrite <- Hsame in Heq. cbn [turns] in Heq.
      destruct (Nat.leb_spec n i); [lia |]. rewrite Hv in Heq.
      apply (f_equal (@length nat)) in Heq.
      rewrite length_app in Heq. cbn [length] in Heq. lia.
    + constructor; [intros [] | constructor].
Qed.

Lemma halts_at_turns (fuel i : nat) :
  halts n a fuel i = true -> halts n a (length (turns n a fuel i)) i = true.
Proof.
  revert i. induction fuel as [| fuel IH]; intros i H.
  - cbn [halts turns] in *. destruct (Nat.leb_spec n i) as [Hi | Hi]; [| discriminate].
    cbn [length halts]. destruct (Nat.leb_spec n i); [reflexivity | lia].
  - cbn [halts turns] in *. destruct (Nat.leb_spec n i) as [Hi | Hi].
    + cbn [length halts]. destruct (Nat.leb_spec n i); [reflexivity | lia].
    + destruct (Value a i) as [j |] eqn:Hv; cbn [length halts];
        destruct (Nat.leb_spec n i); try lia; rewrite Hv; auto.
Qed.

(** A loop that stops has stopped after [n] turns. *)
Lemma halts_within (fuel i : nat) :
  halts n a fuel i = true -> halts n a n i = true.
Proof.
  intros H.
  assert (Hlen : length (turns n a fuel i) <= length (seq 0 n)).
  { apply NoDup_incl_length.
    - apply turns_NoDup. exact H.
    - intros x Hx. apply in_seq.
      pose proof (turns_below fuel i) as Hall. rewrite Forall_forall in Hall.
      specialize (Hall x Hx). lia. }
  rewrite length_seq in Hlen.
  apply (@halts_more _ _ (@halts_at_turns fuel i H) n Hlen).
Qed.

End Fuel.

Lemma read_path_halts (mgr : RoutingIndexManager) (locs : list coord) (a : Assignment)
    (fuel i : nat) (path : list coord) :
  halts (num_nodes mgr) a fuel i = true <-> read_path mgr locs a fuel i path <> Diverge.
Proof.
  revert i path. induction fuel as [| fuel IH]; intros i path;
    cbn [halts read_path]; unfold IsEnd;
    destruct (Nat.leb_spec (num_nodes mgr) i) as [Hi | Hi];
    try (split; [discriminate | reflexivity]).
  - split; [discriminate | congruence].
  - destruct (Value a i) as [j |]; [apply IH | split; [discriminate | reflexivity]].
Qed.

Lemma read_path_more (mgr : RoutingIndexManager) (locs : list coord) (a : Assignment)
    (fuel i : nat) (path : list coord) :
  halts (num_nodes mgr) a fuel i = true ->
  forall fuel', fuel <= fuel' ->
    read_path mgr locs a fuel' i path = read_path mgr locs a fuel i path.
Proof.
  revert i path. induction fuel as [| fuel IH]; intros i path H fuel' Hle.
  - cbn [halts] in H. destruct (Nat.leb_spec (num_nodes mgr) i) as [Hi | Hi]; [| discriminate].
    destruct fuel'; cbn [read_path]; unfold IsEnd;
      destruct (Nat.leb_spec (num_nodes mgr) i); try lia; reflexivity.
  - destruct fuel' as [| fuel']; [lia |].
    cbn [halts read_path] in *. unfold IsEnd.
    destruct (Nat.leb_spec (num_nodes mgr) i) as [Hi | Hi]; [reflexivity |].
    destruct (Value a i) as [j |]; [| reflexivity].
    apply IH; [exact H | lia].
Qed.

(** The turns that [solve_vrp] gives the loop are enough: whatever the
    loop returns or raises with more turns, it returns or raises with as
    many turns as there are nodes. *)
Lemma read_path_enough_fuel (mgr : RoutingIndexManager) (locs : list coord)
    (a : Assignment) (fuel i : nat) (path : list coord) :
  read_path mgr locs a fuel i path <> Diverge ->
  read_path mgr locs a (num_nodes mgr) i path = read_path mgr locs a fuel i path.
Proof.
  intros H. apply read_path_halts in H.
  pose proof (@halts_within _ _ _ _ H) as Hn.
  destruct (Nat.le_ge_cases fuel (num_nodes mgr)) as [Hle | Hle].
  - apply read_path_more; assumption.
  - symmetry. apply read_path_more; assumption.
Qed.

(** ** The route optimizer *)

Section Optimizer.

Variable world : Type.
Variable solve : world -> RoutingModel -> FirstSolutionStrategy -> option Assignment.

Local Abbreviation locs_of depot ps := (depot :: flat_map stops_of ps).

Lemma model_of_spec (depot : coord) (ps : list Passenger) :
  model_of depot ps =
  routing_model (locs_of depot ps)
    (map (fun k => (2 * k + 1, 2 * k + 2)) (seq 0 (length ps))).
Proof. unfold model_of. rewrite build_nodes_spec. reflexivity. Qed.

Lemma model_of_nodes (depot : coord) (ps : list Passenger) :
  num_nodes (manager (model_of depot ps)) = 2 * length ps + 1.
Proof.
  rewrite model_of_spec. cbn [routing_model manager num_nodes length].
  rewrite length_stops. lia.
Qed.

Lemma solve_vrp_unfold (w : world) (depot : coord) (ps : list Passenger) :
  solve_vrp solve w depot ps =
  match solve w (model_of depot ps) PARALLEL_CHEAPEST_INSERTION with
  | Some solution =>
      path <- read_path (manager (model_of depot ps)) (locs_of depot ps) solution
                (num_nodes (manager (model_of depot ps)))
                (Start (manager (model_of depot ps))) [] ;;
      Ret (Some solution, path)
  | None => Ret (None, [])
  end.
Proof.
  unfold solve_vrp. rewrite model_of_spec, build_nodes_spec. reflexivity.
Qed.

Lemma map_loc_at_seq (locs : list coord) :
  map (loc_at locs) (seq 0 (length locs)) = locs.
Proof.
  unfold loc_at. induction locs as [| c locs IH]; [reflexivity |].
  cbn [length seq map nth]. f_equal.
  rewrite <- seq_shift, map_map. exact IH.
Qed.

(** What [solve_vrp] returns when the solver returns the solution [a]:
    the locations along a route [r] that starts at the depot node, visits
    every node once, respects the pickup and delivery pairs, and then the
    location of the end index, the depot again. *)
Lemma solve_vrp_of_solution (w : world) (depot : coord) (ps : list Passenger)
    (a : Assignment) :
  solve w (model_of depot ps) PARALLEL_CHEAPEST_INSERTION = Some a ->
  feasibleb (model_of depot ps) a = true ->
  exists r,
    solve_vrp solve w depot ps =
      Ret (Some a, map (loc_at (locs_of depot ps)) r ++ [depot]) /\
    follow (2 * length ps + 1) a (2 * length ps + 1) 0 = Some (r, 2 * length ps + 1) /\
    length r = 2 * length ps + 1 /\
    hd 0 r = 0 /\
    Permutation r (seq 0 (2 * length ps + 1)) /\
    Forall (fun c => (0 <= c <= 100000)%Z)
           (cumuls (dim_transit (dimension (model_of depot ps))) 0 r (2 * length ps + 1)) /\
    forall k, k < length ps -> precedesb (2 * k + 1) (2 * k + 2) r = true.
Proof.
  intros Hsolve Hfeas.
  destruct (feasibleb_inv _ _ Hfeas) as (r & Hfollow & Hlen & Hnd & Hcum & Hpd).
  pose proof (model_of_nodes depot ps) as Hn.
  assert (HStart : Start (manager (model_of depot ps)) = 0).
  { rewrite model_of_spec. reflexivity. }
  assert (HEnd : End (manager (model_of depot ps)) = 2 * length ps + 1).
  { unfold End. exact Hn. }
  assert (Hcap : dim_capacity (dimension (model_of depot ps)) = 100000%Z).
  { rewrite model_of_spec. reflexivity. }
  rewrite HStart, HEnd, Hn in Hfollow. rewrite Hn in Hlen.
  rewrite HEnd, Hcap in Hcum.
  destruct (follow_shape _ _ _ _ Hfollow) as (Hall & _ & Hhd & _).
  exists r. repeat split; try assumption.
  - rewrite solve_vrp_unfold, Hsolve, HStart, Hn.
    rewrite (@read_path_follow (manager (model_of depot ps)) (locs_of depot ps) a
               (2 * length ps + 1) 0 r (2 * length ps + 1) [])
      by (rewrite Hn; exact Hfollow).
    cbn [bind app]. do 3 f_equal.
    + apply map_ext_in. intros k Hk. rewrite Forall_forall in Hall.
      specialize (Hall k Hk). unfold IndexToNode. rewrite Hn.
      destruct (Nat.ltb_spec k (2 * length ps + 1)); [reflexivity | lia].
    + unfold IndexToNode. rewrite Hn.
      destruct (Nat.ltb_spec (2 * length ps + 1) (2 * length ps + 1)); [lia |].
      rewrite model_of_spec. reflexivity.
  - destruct r as [| x r']; [cbn in Hlen; lia | exact Hhd].
  - apply route_permutation; assumption.
  - intros k Hk. rewrite Forall_forall in Hpd.
    apply (Hpd (2 * k + 1, 2 * k + 2)).
    rewrite model_of_spec. cbn [routing_model pickup_deliveries].
    rewrite map_map. unfold NodeToIndex. cbn [fst snd].
    apply in_map_iff. exists k. split; [reflexivity |].
    apply in_seq. lia.
Qed.

Hypothesis solve_sound : solver_sound solve.

(** With a sound solver [solve_vrp] returns, with no solution and no
    path or with a solution and the path of its route. *)
Lemma solve_vrp_cases (w : world) (depot : coord) (ps : list Passenger) :
  (solve w (model_of depot ps) PARALLEL_CHEAPEST_INSERTION = None /\
   solve_vrp solve w depot ps = Ret (None, []))
  \/
  (exists a r,
     solve w (model_of depot ps) PARALLEL_CHEAPEST_INSERTION = Some a /\
     solve_vrp solve w depot ps =
       Ret (Some a, map (loc_at (locs_of depot ps)) r ++ [depot]) /\
     length r = 2 * length ps + 1 /\
     hd 0 r = 0 /\
     Permutation r (seq 0 (2 * length ps + 1)) /\
     forall k, k < length ps -> precedesb (2 * k + 1) (2 * k + 2) r = true).
Proof.
  destruct (solve w (model_of depot ps) PARALLEL_CHEAPEST_INSERTION) as [a |] eqn:Hs.
  - right. destruct (@solve_vrp_of_solution w depot ps a Hs (solve_sound Hs))
      as (r & H1 & _ & H2 & H3 & H4 & _ & H5).
    exists a, r. repeat split; assumption.
  - left. split; [reflexivity |]. rewrite solve_vrp_unfold, Hs. reflexivity.
Qed.

(** C1, as amended: whenever [solve_vrp] returns a solution, the
    coordinate sequence it returns contains, for each passenger request, the
    pickup coordinate at a strictly earlier position than the dropoff
    coordinate. *)
Theorem solve_vrp_pickup_before_dropoff (w : world) (depot : coord)
    (ps : list Passenger) (sol : Assignment) (path : list coord) :
  solve_vrp solve w depot ps = Ret (Some sol, path) ->
  forall p, In p ps -> before (coords (start_stop p)) (coords (end_stop p)) path.
Proof.
  intros Hret p Hin.
  destruct (solve_vrp_cases w depot ps) as [[_ Hnone] | (a & r & _ & Hsome & Hlen & _ & _ & Hpd)].
  - rewrite Hnone in Hret. discriminate.
  - rewrite Hsome in Hret. injection Hret as _ <-.
    destruct (In_nth_error _ _ Hin) as [k Hk].
    assert (Hklt : k < length ps) by (apply nth_error_Some; congruence).
    destruct (precedesb_nth _ _ _ (Hpd k Hklt)) as (i & j & Hij & Hi & Hj).
    destruct (loc_at_request depot ps k Hk) as [Hstart Hend].
    assert (Hjlt : j < length r) by (apply nth_error_Some; congruence).
    exists i, j. repeat split; [exact Hij | |].
    + rewrite nth_error_app1 by (rewrite length_map; lia).
      rewrite (map_nth_error _ _ _ Hi), Hstart. reflexivity.
    + rewrite nth_error_app1 by (rewrite length_map; lia).
      rewrite (map_nth_error _ _ _ Hj), Hend. reflexivity.
Qed.

(** C6, as amended: whenever the optimizer succeeds on [n] requests, the
    path is a sequence of [2n+2] coordinates that begins and ends with the
    depot; between the two, it visits the pickup and the dropoff of every
    request, each once. *)
Theorem solve_vrp_solution_shape (w : world) (depot : coord)
    (ps : list Passenger) (sol : Assignment) (path : list coord) :
  solve_vrp solve w depot ps = Ret (Some sol, path) ->
  length path = 2 * length ps + 2 /\
  nth_error path 0 = Some depot /\
  nth_error path (2 * length ps + 1) = Some depot /\
  Permutation (removelast path) (depot :: flat_map stops_of ps) /\
  forall p, In p ps ->
    In (coords (start_stop p)) path /\ In (coords (end_stop p)) path.
Proof.
  intros Hret.
  destruct (solve_vrp_cases w depot ps) as [[_ Hnone] | (a & r & _ & Hsome & Hlen & Hhd & Hperm & _)].
  - rewrite Hnone in Hret. discriminate.
  - rewrite Hsome in Hret. injection Hret as _ <-.
    assert (Hvisits : Permutation (map (loc_at (locs_of depot ps)) r) (locs_of depot ps)).
    { rewrite <- (map_loc_at_seq (locs_of depot ps)) at 2.
      apply Permutation_map. cbn [length]. rewrite length_stops.
      replace (S (2 * length ps)) with (2 * length ps + 1) by lia. exact Hperm. }
    split; [rewrite length_app, length_map; cbn [length]; lia |].
    split; [destruct r as [| x r']; [cbn in Hlen; lia |]; cbn in Hhd; subst x; reflexivity |].
    split; [rewrite nth_error_app2 by (rewrite length_map; lia);
            rewrite length_map, Hlen, Nat.sub_diag; reflexivity |].
    split; [rewrite removelast_last; exact Hvisits |].
    intros p Hin.
    assert (Hsub : forall c, In c (flat_map stops_of ps) ->
                     In c (map (loc_at (locs_of depot ps)) r ++ [depot])).
    { intros c Hc. apply in_or_app. left.
      apply (Permutation_in _ (Permutation_sym Hvisits)). right. exact Hc. }
    split; apply Hsub; apply in_flat_map; exists p; (split; [exact Hin |]); cbn; auto.
Qed.

Lemma feasible_no_requests (depot : coord) :
  feasibleb (model_of depot []) [1] = true.
Proof.
  unfold feasibleb, model_of. cbn -[distance Z.leb Z.add].
  unfold dist_fn, IndexToNode, loc_at. cbn -[distance Z.leb Z.add].
  unfold distance. rewrite get_distance_same. reflexivity.
Qed.

(** C7: for every depot, when the solver does not give up on the model
    of one node, [solve_vrp] with no request returns a solution whose path
    is the depot, start and end of the route, and whose cost is zero. *)
Theorem solve_vrp_no_requests (w : world) (depot : coord) :
  solves_single_node solve ->
  exists sol,
    solve_vrp solve w depot [] = Ret (Some sol, [depot; depot]) /\
    ObjectiveValue (model_of depot []) sol = 0%Z.
Proof.
  intros Hsingle.
  destruct (solve w (model_of depot []) PARALLEL_CHEAPEST_INSERTION) as [a |] eqn:Hs.
  - destruct (@solve_vrp_of_solution w depot [] a Hs (solve_sound Hs))
      as (r & Hret & Hfollow & Hlen & Hhd & _).
    cbn [length Nat.mul Nat.add] in Hfollow, Hlen.
    destruct r as [| x [| y r']]; try discriminate.
    cbn [hd] in Hhd. subst x.
    exists a. split; [exact Hret |].
    unfold ObjectiveValue. rewrite model_of_nodes. cbn [length Nat.mul Nat.add].
    replace (Start (manager (model_of depot []))) with 0 by reflexivity.
    rewrite Hfollow. cbn -[distance].
    unfold dist_fn, IndexToNode, loc_at. cbn -[distance].
    unfold distance. rewrite get_distance_same. reflexivity.
  - exfalso. apply (Hsingle w (model_of depot []) PARALLEL_CHEAPEST_INSERTION [1]).
    + reflexivity.
    + apply feasible_no_requests.
    + exact Hs.
Qed.

End Optimizer.

(** ** The sequential solver and the example places *)

Section Examples.

Lemma sequential_solver_sound : solver_sound sequential_solver.
Proof.
  intros w m p a H. unfold sequential_solver in H. cbv zeta in H.
  destruct (feasibleb m (seq 1 (num_nodes (manager m)))) eqn:Hf; [| discriminate].
  injection H as <-. exact Hf.
Qed.

(** A model of one node has one candidate solution. *)
Lemma single_node_solution (m : RoutingModel) (a : Assignment) :
  num_nodes (manager m) = 1 -> feasibleb m a = true -> a = [1].
Proof.
  intros Hn Hf.
  assert (Hlen : length a = 1).
  { unfold feasibleb in Hf. cbv zeta in Hf. apply andb_true_iff in Hf as [Hl _].
    apply Nat.eqb_eq in Hl. congruence. }
  destruct (feasibleb_inv _ _ Hf) as (r & Hfollow & Hr & _).
  rewrite Hn in Hfollow, Hr. unfold End in Hfollow. rewrite Hn in Hfollow.
  destruct a as [| x [| y a']]; try discriminate.
  destruct (Start (manager m)) as [| s].
  - rewrite follow_step in Hfollow by lia. cbn [Value nth_error] in Hfollow.
    destruct x as [| x].
    + rewrite follow_stuck in Hfollow by lia. discriminate.
    + rewrite follow_end in Hfollow by lia. injection Hfollow as _ ->. reflexivity.
  - rewrite follow_end in Hfollow by lia. injection Hfollow as <- _. discriminate.
Qed.

Lemma sequential_solves_single_node : solves_single_node sequential_solver.
Proof.
  intros w m p a Hn Hf. unfold sequential_solver. cbv zeta.
  rewrite Hn. cbn [seq].
  rewrite <- (single_node_solution m a Hn Hf), Hf. discriminate.
Qed.

Local Open Scope R_scope.

Lemma distance_goyang_a : (0 <= distance depot_goyang (coords stop_a) <= 1415)%Z.
Proof.
  unfold distance, depot_goyang, stop_a. cbn [coords fst snd].
  split; [apply get_distance_nonneg |].
  assert (Hd : Rabs (37.67 - 37.66) = 0.01) by (rewrite Rabs_pos_eq; lra).
  assert (Hle : Rabs (37.67 - 37.66) <= 180) by lra.
  pose proof (get_distance_meridian_bounds 37.66 37.67 126.75 Hle) as [_ Hhi].
  rewrite Hd in Hhi. unfold R_earth in Hhi.
  assert (Hlt : IZR (get_distance 37.66 126.75 37.67 126.75) < IZR 1416) by lra.
  apply lt_IZR in Hlt. lia.
Qed.

Lemma distance_a_b : (0 <= distance (coords stop_a) (coords stop_b) <= 1415)%Z.
Proof.
  unfold distance, stop_a, stop_b. cbn [coords fst snd].
  split; [apply get_distance_nonneg |].
  assert (Hd : Rabs (37.68 - 37.67) = 0.01) by (rewrite Rabs_pos_eq; lra).
  assert (Hle : Rabs (37.68 - 37.67) <= 180) by lra.
  pose proof (get_distance_meridian_bounds 37.67 37.68 126.75 Hle) as [_ Hhi].
  rewrite Hd in Hhi. unfold R_earth in Hhi.
  assert (Hlt : IZR (get_distance 37.67 126.75 37.68 126.75) < IZR 1416) by lra.
  apply lt_IZR in Hlt. lia.
Qed.

Lemma distance_b_goyang : (0 <= distance (coords stop_b) depot_goyang <= 2831)%Z.
Proof.
  unfold distance, depot_goyang, stop_b. cbn [coords fst snd].
  split; [apply get_distance_nonneg |].
  assert (Hd : Rabs (37.66 - 37.68) = 0.02) by (rewrite Rabs_left; lra).
  assert (Hle : Rabs (37.66 - 37.68) <= 180) by lra.
  pose proof (get_distance_meridian_bounds 37.68 37.66 126.75 Hle) as [_ Hhi].
  rewrite Hd in Hhi. unfold R_earth in Hhi.
  assert (Hlt : IZR (get_distance 37.68 126.75 37.66 126.75) < IZR 2832) by lra.
  apply lt_IZR in Hlt. lia.
Qed.

(** From the far depot every stop of the example is more than 100 km
    away. *)
Lemma distance_far_a : (100000 < distance depot_far (coords stop_a))%Z.
Proof.
  unfold distance, depot_far, stop_a. cbn [coords fst snd].
  assert (Hd : Rabs (37.67 - 35.66) = 2.01) by (rewrite Rabs_pos_eq; lra).
  assert (Hle : Rabs (37.67 - 35.66) <= 180) by lra.
  pose proof (get_distance_meridian_bounds 35.66 37.67 126.75 Hle) as [Hlo _].
  rewrite Hd in Hlo. unfold R_earth in Hlo.
  assert (Hlt : IZR 100000 < IZR (get_distance 35.66 126.75 37.67 126.75)) by lra.
  apply lt_IZR in Hlt. exact Hlt.
Qed.

Lemma distance_far_b : (100000 < distance depot_far (coords stop_b))%Z.
Proof.
  unfold distance, depot_far, stop_b. cbn [coords fst snd].
  assert (Hd : Rabs (37.68 - 35.66) = 2.02) by (rewrite Rabs_pos_eq; lra).
  assert (Hle : Rabs (37.68 - 35.66) <= 180) by lra.
  pose proof (get_distance_meridian_bounds 35.66 37.68 126.75 Hle) as [Hlo _].
  rewrite Hd in Hlo. unfold R_earth in Hlo.
  assert (Hlt : IZR 100000 < IZR (get_distance 35.66 126.75 37.68 126.75)) by lra.
  apply lt_IZR in Hlt. exact Hlt.
Qed.

Local Close Scope R_scope.

Lemma feasible_goyang :
  feasibleb (model_of depot_goyang [request_ab]) [1; 2; 3] = true.
Proof.
  pose proof distance_goyang_a as [Ha0 Ha1].
  pose proof distance_a_b as [Hb0 Hb1].
  pose proof distance_b_goyang as [Hc0 Hc1].
  unfold feasibleb, model_of. cbn -[distance Z.leb Z.add].
  unfold dist_fn, IndexToNode, loc_at. cbn -[distance Z.leb Z.add].
  set (d1 := distance depot_goyang (37.67%R, 126.75%R)).
  set (d2 := distance (37.67%R, 126.75%R) (37.68%R, 126.75%R)).
  set (d3 := distance (37.68%R, 126.75%R) depot_goyang).
  change (coords stop_a) with (37.67%R, 126.75%R) in *.
  change (coords stop_b) with (37.68%R, 126.75%R) in *.
  fold d1 in Ha0, Ha1. fold d2 in Hb0, Hb1. fold d3 in Hc0, Hc1.
  repeat (apply andb_true_intro; split); try reflexivity; apply Z.leb_le; lia.
Qed.

Lemma solve_vrp_goyang :
  solve_vrp sequential_solver tt depot_goyang [request_ab] =
  Ret (Some [1; 2; 3], [depot_goyang; coords stop_a; coords stop_b; depot_goyang]).
Proof.
  rewrite solve_vrp_unfold. unfold sequential_solver. cbv zeta.
  rewrite model_of_nodes. cbn [length Nat.mul Nat.add seq].
  rewrite feasible_goyang.
  replace (Start (manager (model_of depot_goyang [request_ab]))) with 0 by reflexivity.
  unfold model_of. cbn -[distance]. reflexivity.
Qed.

(** The first arc of a solution fits in the capacity of the dimension. *)
Lemma feasible_first_hop (m : RoutingModel) (a : Assignment) :
  feasibleb m a = true ->
  Start (manager m) < num_nodes (manager m) ->
  2 <= num_nodes (manager m) ->
  exists j,
    j < num_nodes (manager m) /\ j <> Start (manager m) /\
    (dim_transit (dimension m) (Start (manager m)) j <= dim_capacity (dimension m))%Z.
Proof.
  intros Hf Hs Hn.
  destruct (feasibleb_inv _ _ Hf) as (r & Hfollow & Hlen & Hnd & Hcum & _).
  destruct (num_nodes (manager m)) as [| [| n]] eqn:En; try lia.
  rewrite follow_step in Hfollow by lia.
  destruct (Value a (Start (manager m))) as [j |]; [| discriminate].
  destruct (follow (S (S n)) a (S n) j) as [[r' e] |] eqn:Hf'; [| discriminate].
  injection Hfollow as Hr He. subst r e.
  destruct (Nat.lt_ge_cases j (S (S n))) as [Hj | Hj].
  - rewrite follow_step in Hf' by lia.
    destruct (Value a j) as [j' |]; [| discriminate].
    destruct (follow (S (S n)) a n j') as [[r'' e'] |]; [| discriminate].
    injection Hf' as Hr' He'. subst r'.
    exists j. split; [exact Hj |]. split.
    + intros ->. apply NoDup_cons_iff in Hnd as [Hnotin _]. apply Hnotin. left. reflexivity.
    + cbn [cumuls hd] in Hcum.
      apply Forall_inv_tail in Hcum. apply Forall_inv in Hcum. lia.
  - rewrite follow_end in Hf' by lia. injection Hf' as <- _. discriminate.
Qed.

(** No route serves the request from the far depot: whichever stop comes
    first is beyond the 100 km of the distance dimension. *)
Lemma infeasible_far (a : Assignment) :
  feasibleb (model_of depot_far [request_ab]) a = false.
Proof.
  destruct (feasibleb (model_of depot_far [request_ab]) a) eqn:Hf; [| reflexivity].
  exfalso.
  destruct (feasible_first_hop _ _ Hf) as (j & Hj & Hne & Hcap).
  - rewrite model_of_nodes. cbn. lia.
  - rewrite model_of_nodes. cbn. lia.
  - rewrite model_of_nodes in Hj. cbn [length Nat.mul Nat.add] in Hj.
    replace (Start (manager (model_of depot_far [request_ab]))) with 0 in * by reflexivity.
    pose proof distance_far_a. pose proof distance_far_b.
    destruct j as [| [| [| j]]]; try lia.
    + unfold model_of in Hcap. cbn -[distance] in Hcap.
      unfold dist_fn, IndexToNode, loc_at in Hcap. cbn -[distance] in Hcap.
      change (37.67%R, 126.75%R) with (coords stop_a) in Hcap. lia.
    + unfold model_of in Hcap. cbn -[distance] in Hcap.
      unfold dist_fn, IndexToNode, loc_at in Hcap. cbn -[distance] in Hcap.
      change (37.68%R, 126.75%R) with (coords stop_b) in Hcap. lia.
Qed.

Lemma solve_vrp_far (world : Type)
    (solve : world -> RoutingModel -> FirstSolutionStrategy -> option Assignment) (w : world) :
  solver_sound solve ->
  solve_vrp solve w depot_far [request_ab] = Ret (None, []).
Proof.
  intros Hsound. rewrite solve_vrp_unfold.
  destruct (solve w (model_of depot_far [request_ab]) PARALLEL_CHEAPEST_INSERTION)
    as [a |] eqn:Hs; [| reflexivity].
  apply Hsound in Hs. rewrite infeasible_far in Hs. discriminate.
Qed.

End Examples.

(** ** The optimizer on the example places *)

Section OptimizerExamples.

Lemma solve_vrp_pickup_before_dropoff_witness :
  before (coords stop_a) (coords stop_b)
         [depot_goyang; coords stop_a; coords stop_b; depot_goyang].
Proof.
  apply (@solve_vrp_pickup_before_dropoff unit sequential_solver
           sequential_solver_sound tt depot_goyang [request_ab] [1; 2; 3]
           [depot_goyang; coords stop_a; coords stop_b; depot_goyang]
           solve_vrp_goyang request_ab).
  left. reflexivity.
Defined.

(** C1, counterexample: with the depot 220 km south of the two stops no
    route fits in the 100 km of the distance dimension; every sound solver
    answers [None], [solve_vrp] returns the empty sequence, and the pickup
    is nowhere in it. *)
Lemma solve_vrp_far_request_counterexample :
  [request_ab] <> [] /\
  (forall (world : Type) solve (w : world),
      solver_sound solve ->
      solve_vrp solve w depot_far [request_ab] = Ret (None, [])) /\
  solve_vrp sequential_solver tt depot_far [request_ab] = Ret (None, []) /\
  ~ before (coords (start_stop request_ab)) (coords (end_stop request_ab)) [].
Proof.
  split; [discriminate |].
  split; [intros world solve w Hs; apply solve_vrp_far; exact Hs |].
  split; [apply solve_vrp_far; exact sequential_solver_sound |].
  intros (i & j & _ & Hi & _). destruct i; discriminate.
Qed.

Lemma solve_vrp_solution_shape_witness :
  length [depot_goyang; coords stop_a; coords stop_b; depot_goyang] = 2 * 1 + 2 /\
  nth_error [depot_goyang; coords stop_a; coords stop_b; depot_goyang] (2 * 1 + 1)
    = Some depot_goyang.
Proof.
  destruct (@solve_vrp_solution_shape unit sequential_solver
              sequential_solver_sound tt depot_goyang [request_ab] [1; 2; 3]
              [depot_goyang; coords stop_a; coords stop_b; depot_goyang]
              solve_vrp_goyang) as (Hlen & _ & Hlast & _).
  split; [exact Hlen | exact Hlast].
Defined.

(** C6, counterexample: one request; the path has four coordinates, not
    three, and the last one is the depot again. *)
Lemma solve_vrp_goyang_counterexample :
  solve_vrp sequential_solver tt depot_goyang [request_ab] =
    Ret (Some [1; 2; 3], [depot_goyang; coords stop_a; coords stop_b; depot_goyang]) /\
  length [depot_goyang; coords stop_a; coords stop_b; depot_goyang] <> 2 * 1 + 1 /\
  last [depot_goyang; coords stop_a; coords stop_b; depot_goyang] (0%R, 0%R) = depot_goyang.
Proof.
  split; [exact solve_vrp_goyang |]. split; [cbn; lia | reflexivity].
Qed.

Lemma solve_vrp_no_requests_witness :
  exists sol,
    solve_vrp sequential_solver tt depot_goyang [] =
      Ret (Some sol, [depot_goyang; depot_goyang]) /\
    ObjectiveValue (model_of depot_goyang []) sol = 0%Z.
Proof.
  apply (@solve_vrp_no_requests unit sequential_solver sequential_solver_sound
           tt depot_goyang sequential_solves_single_node).
Defined.

End OptimizerExamples.

(** ** The road network client and the recompute orchestrator *)

Section Orchestrator.

Variable world : Type.
Variable solve : world -> RoutingModel -> FirstSolutionStrategy -> option Assignment.
Variable http_get_json : world -> list (R * R) -> result json.
Variable polyline_decode : json -> result (list coord).
Variable get_distance_run : coord -> coord -> result Z.

(** Bodies that are malformed: anything but an object, an object without
    routes, an empty list of routes. *)
Lemma not_an_object_malformed (r : json) :
  (forall items, r <> JObj items) ->
  route_of_response polyline_decode r = Raise TypeError.
Proof.
  intros Hr. unfold route_of_response.
  destruct r; try reflexivity. exfalso. eapply Hr. reflexivity.
Qed.

Lemma no_routes_malformed (items : list (string * json)) :
  lookup "routes" items = None ->
  route_of_response polyline_decode (JObj items) = Raise KeyError.
Proof.
  intros Hl. unfold route_of_response. cbn [getitem_str]. rewrite Hl. reflexivity.
Qed.

Lemma empty_routes_malformed (items : list (string * json)) :
  lookup "routes" items = Some (JArr []) ->
  route_of_response polyline_decode (JObj items) = Raise IndexError.
Proof.
  intros Hl. unfold route_of_response. cbn [getitem_str]. rewrite Hl. reflexivity.
Qed.

(** A body without a readable first route makes the body of the [try]
    raise, whatever its shape. *)
Lemma no_first_route_raises (r : json) :
  no_first_route polyline_decode r ->
  exists e, route_of_response polyline_decode r = Raise e.
Proof.
  intros Hr. destruct Hr as
    [r Hobj | items Hl | items v Hl Hv | items Hl | items first rest Hl Hf
     | items fields rest Hl Hg | items fields rest g e Hl Hg Hd
     | items fields rest g road k Hl Hg Hd Hk Hnone].
  - exists TypeError. apply not_an_object_malformed. exact Hobj.
  - exists KeyError. apply no_routes_malformed. exact Hl.
  - unfold route_of_response. cbn [getitem_str]. rewrite Hl. cbn [bind].
    destruct v as [| b | x | t | l | fields]; cbn [getitem_nat bind];
      try (eexists; reflexivity).
    + destruct (String.get 0 t); cbn [bind getitem_str]; eexists; reflexivity.
    + exfalso. apply (Hv l). reflexivity.
  - exists IndexError. apply empty_routes_malformed. exact Hl.
  - unfold route_of_response. cbn [getitem_str]. rewrite Hl.
    cbn [bind getitem_nat nth_error].
    destruct first as [| b | x | t | l | fields]; cbn [bind getitem_str];
      try (eexists; reflexivity).
    exfalso. apply (Hf fields). reflexivity.
  - unfold route_of_response. cbn [getitem_str]. rewrite Hl.
    cbn [bind getitem_nat nth_error getitem_str]. rewrite Hg.
    eexists. reflexivity.
  - unfold route_of_response. cbn [getitem_str]. rewrite Hl.
    cbn [bind getitem_nat nth_error getitem_str]. rewrite Hg. cbn [bind].
    rewrite Hd. eexists. reflexivity.
  - unfold route_of_response. cbn [getitem_str]. rewrite Hl.
    cbn [bind getitem_nat nth_error getitem_str]. rewrite Hg. cbn [bind].
    rewrite Hd. cbn [bind].
    destruct Hk as [-> | ->].
    + rewrite Hnone. eexists. reflexivity.
    + destruct (lookup "distance" fields); cbn [bind];
        [rewrite Hnone |]; eexists; reflexivity.
Qed.

(** A body with a first route that has a geometry that decodes, a
    distance and a duration is handed on as it is: nothing looks at what
    the distance and the duration are. *)
Lemma get_osrm_data_first_route (w : world) (coords_list : list coord)
    (items fields : list (string * json)) (rest : list json)
    (g d t : json) (road : list coord) :
  2 <= length coords_list ->
  http_get_json w (loc_str coords_list) = Ret (JObj items) ->
  lookup "routes" items = Some (JArr (JObj fields :: rest)) ->
  lookup "geometry" fields = Some g ->
  polyline_decode g = Ret road ->
  lookup "distance" fields = Some d ->
  lookup "duration" fields = Some t ->
  get_osrm_data http_get_json polyline_decode w coords_list = Ret (road, d, t).
Proof.
  intros Hlen Hreq Hl Hg Hdec Hd Ht. unfold get_osrm_data.
  destruct (Nat.ltb_spec (length coords_list) 2) as [Hlt | _]; [lia |].
  unfold osrm_route. rewrite Hreq. cbn [bind].
  unfold route_of_response. cbn [getitem_str]. rewrite Hl.
  cbn [bind getitem_nat nth_error getitem_str]. rewrite Hg. cbn [bind].
  rewrite Hdec. cbn [bind]. rewrite Hd. cbn [bind]. rewrite Ht. reflexivity.
Qed.

(** C3, as amended: for every coordinate list of length at least 2, if
    the call of the road network service raises (network error, timeout, a
    body that is not JSON) or its response has no readable first route
    (the body is not an object, it has no list of routes, the list is
    empty, the first route is not an object, it lacks the geometry, the
    distance or the duration, or its geometry does not decode),
    [get_osrm_data] returns the input list as the path geometry with
    distance 0 and duration 0; it raises nothing. *)
Theorem get_osrm_data_fallback (w : world) (coords_list : list coord) :
  2 <= length coords_list ->
  road_service_unusable http_get_json polyline_decode w coords_list ->
  get_osrm_data http_get_json polyline_decode w coords_list =
  Ret (coords_list, JNum 0, JNum 0).
Proof.
  intros Hlen Hfail. unfold get_osrm_data.
  destruct (Nat.ltb_spec (length coords_list) 2) as [Hlt | _]; [lia |].
  unfold osrm_route.
  destruct Hfail as [e Hreq | r Hreq Hbody].
  - rewrite Hreq. reflexivity.
  - rewrite Hreq. cbn [bind].
    destruct (no_first_route_raises Hbody) as [e He]. rewrite He. reflexivity.
Qed.

(** C2: for every state in which the request set is empty, one call of
    [update_system] clears the route plan (no path, no stop names, zero
    distance and duration), leaves the rest of the session as it is, and
    returns without a call to the optimizer or to the road service. *)
Theorem update_system_no_requests (w : world) (st : SessionState) :
  passengers st = [] ->
  let after := update_system solve http_get_json polyline_decode w st in
  current_route_path (state_after after) = None /\
  summary (state_after after) = [] /\
  metrics (state_after after) = (0%R, 0%R) /\
  calls after = [] /\
  ending after = Ret tt /\
  depot (state_after after) = depot st /\
  passengers (state_after after) = passengers st /\
  nearby_stops (state_after after) = nearby_stops st /\
  temp_p (state_after after) = temp_p st /\
  last_click (state_after after) = last_click st /\
  mode (state_after after) = mode st.
Proof.
  intros Hempty. cbv zeta. unfold update_system. rewrite Hempty.
  cbn. rewrite ?Hempty. repeat split; reflexivity.
Qed.

(** C10: for every state with a non-empty request set, if [solve_vrp]
    returns no solution, [update_system] leaves the session, and with it
    the previous route plan, as it was: it does not clear the plan, does not
    call the road service, and raises nothing. *)
Theorem update_system_no_solution (w : world) (st : SessionState) (path : list coord) :
  passengers st <> [] ->
  solve_vrp solve w (depot st) (passengers st) = Ret (None, path) ->
  update_system solve http_get_json polyline_decode w st =
  {| state_after := st;
     calls := [CallOptimizer (depot st) (passengers st)];
     ending := Ret tt |}.
Proof.
  intros Hne Hnone. unfold update_system.
  destruct (passengers st) as [| p ps] eqn:Hps; [contradiction |].
  rewrite Hnone. reflexivity.
Qed.

(** *** The map click *)

Lemma min_by_in (A : Type) (key : A -> Z) (items : list A) (best : A) :
  In (min_by key best items) (best :: items).
Proof.
  revert best. induction items as [| x items IH]; intros best.
  - left. reflexivity.
  - cbn [min_by]. specialize (IH (if (key x <? key best)%Z then x else best)).
    destruct IH as [Heq | Hin].
    + rewrite <- Heq. destruct (key x <? key best)%Z; [right; left | left]; reflexivity.
    + right. right. exact Hin.
Qed.

Lemma min_by_le_best (A : Type) (key : A -> Z) (items : list A) (best : A) :
  (key (min_by key best items) <= key best)%Z.
Proof.
  revert best. induction items as [| x items IH]; intros best.
  - cbn. lia.
  - cbn [min_by]. specialize (IH (if (key x <? key best)%Z then x else best)).
    destruct (Z.ltb_spec (key x) (key best)); lia.
Qed.

Lemma min_by_least (A : Type) (key : A -> Z) (items : list A) (best x : A) :
  In x (best :: items) -> (key (min_by key best items) <= key x)%Z.
Proof.
  revert best. induction items as [| y items IH]; intros best Hin.
  - destruct Hin as [<- | []]. cbn. lia.
  - cbn [min_by]. destruct Hin as [<- | [<- | Hin]].
    + pose proof (min_by_le_best key items (if (key y <? key best)%Z then y else best)).
      destruct (Z.ltb_spec (key y) (key best)); lia.
    + pose proof (min_by_le_best key items (if (key y <? key best)%Z then y else best)).
      destruct (Z.ltb_spec (key y) (key best)); lia.
    + apply IH. right. exact Hin.
Qed.

Lemma coord_eqb_refl (c : coord) : coord_eqb c c = true.
Proof. unfold coord_eqb. destruct (coord_eq_dec c c); congruence. Qed.

Lemma coord_eqb_neq (c d : coord) : c <> d -> coord_eqb c d = false.
Proof. intros H. unfold coord_eqb. destruct (coord_eq_dec c d); congruence. Qed.

Lemma min_by_split (A : Type) (key : A -> Z) (items : list A) (best : A) :
  (min_by key best items = best /\ forall y, In y items -> (key best <= key y)%Z)
  \/
  (exists pre post,
      items = pre ++ min_by key best items :: post /\
      (key (min_by key best items) < key best)%Z /\
      (forall y, In y pre -> (key (min_by key best items) < key y)%Z) /\
      (forall y, In y post -> (key (min_by key best items) <= key y)%Z)).
Proof.
  revert best. induction items as [| x items IH]; intros best.
  - left. split; [reflexivity | intros y []].
  - cbn [min_by]. destruct (Z.ltb_spec (key x) (key best)) as [Hlt | Hge].
    + destruct (IH x) as [[Hm Hall] | (pre & post & Heq & Hk & Hpre & Hpost)].
      * right. exists [], items. rewrite Hm. cbn [app].
        repeat split; [exact Hlt | intros y [] | exact Hall].
      * right. exists (x :: pre), post. cbn [app]. rewrite <- Heq.
        repeat split; [lia | | exact Hpost].
        intros y [<- | Hy]; [exact Hk | apply Hpre; exact Hy].
    + destruct (IH best) as [[Hm Hall] | (pre & post & Heq & Hk & Hpre & Hpost)].
      * left. split; [exact Hm |]. intros y [<- | Hy]; [exact Hge | apply Hall; exact Hy].
      * right. exists (x :: pre), post. cbn [app]. rewrite <- Heq.
        repeat split; [exact Hk | | exact Hpost].
        intros y [<- | Hy]; [lia | apply Hpre; exact Hy].
Qed.

(** [min] returns the first of the items with the least key. *)
Lemma py_min_first (A : Type) (key : A -> Z) (items : list A) (target : A) :
  py_min key items = Ret target ->
  exists pre post,
    items = pre ++ target :: post /\
    (forall y, In y pre -> (key target < key y)%Z) /\
    (forall y, In y post -> (key target <= key y)%Z).
Proof.
  destruct items as [| x0 items]; [discriminate |].
  cbn [py_min]. intros H. injection H as <-.
  destruct (min_by_split key items x0)
    as [[Hm Hall] | (pre & post & Heq & Hk & Hpre & Hpost)].
  - exists [], items. rewrite Hm. cbn [app].
    repeat split; [intros y [] | exact Hall].
  - exists (x0 :: pre), post. cbn [app]. rewrite <- Heq.
    repeat split; [| exact Hpost].
    intros y [<- | Hy]; [exact Hk | apply Hpre; exact Hy].
Qed.

(** When the key returns for every item, [min] with the key as it runs is
    [min] with the values of the key. *)
Lemma min_by_run_returns (A : Type) (key : A -> result Z) (metres : A -> Z)
    (items : list A) (best : A) :
  (forall x, In x items -> key x = Ret (metres x)) ->
  min_by_run key best (metres best) items = Ret (min_by metres best items).
Proof.
  revert best. induction items as [| x items IH]; intros best Hkey.
  - reflexivity.
  - cbn [min_by_run min_by]. rewrite (Hkey x (or_introl eq_refl)). cbn [bind].
    destruct (metres x <? metres best)%Z; apply IH; intros y Hy; apply Hkey; right; exact Hy.
Qed.

Lemma py_min_run_returns (A : Type) (key : A -> result Z) (metres : A -> Z)
    (items : list A) :
  (forall x, In x items -> key x = Ret (metres x)) ->
  py_min_run key items = py_min metres items.
Proof.
  destruct items as [| x items]; intros Hkey; [reflexivity |].
  cbn [py_min_run py_min]. rewrite (Hkey x (or_introl eq_refl)). cbn [bind].
  apply min_by_run_returns. intros y Hy. apply Hkey. right. exact Hy.
Qed.

(** The first item whose key raises ends [min] with that exception. *)
Lemma min_by_run_raises (A : Type) (key : A -> result Z) (metres : A -> Z)
    (pre post : list A) (x best : A) (kbest : Z) (e : exn) :
  (forall y, In y pre -> key y = Ret (metres y)) ->
  key x = Raise e ->
  min_by_run key best kbest (pre ++ x :: post) = Raise e.
Proof.
  revert best kbest. induction pre as [| y pre IH]; intros best kbest Hpre Hx.
  - cbn [app min_by_run]. rewrite Hx. reflexivity.
  - cbn [app min_by_run]. rewrite (Hpre y (or_introl eq_refl)). cbn [bind].
    destruct (metres y <? kbest)%Z; apply IH; try exact Hx;
      intros z Hz; apply Hpre; right; exact Hz.
Qed.

Lemma py_min_run_raises (A : Type) (key : A -> result Z) (metres : A -> Z)
    (pre post : list A) (x : A) (e : exn) :
  (forall y, In y pre -> key y = Ret (metres y)) ->
  key x = Raise e ->
  py_min_run key (pre ++ x :: post) = Raise e.
Proof.
  intros Hpre Hx. destruct pre as [| y pre].
  - cbn [app py_min_run]. rewrite Hx. reflexivity.
  - cbn [app py_min_run]. rewrite (Hpre y (or_introl eq_refl)). cbn [bind].
    apply (@min_by_run_raises A key metres pre post x y (metres y) e);
      [| exact Hx]. intros z Hz. apply Hpre. right. exact Hz.
Qed.

Lemma fresh_click (pos : coord) (st : SessionState) :
  last_click st <> Some pos ->
  match last_click st with
  | Some c => negb (coord_eqb pos c)
  | None => true
  end = true.
Proof.
  intros Hfresh. destruct (last_click st) as [c |]; [| reflexivity].
  rewrite coord_eqb_neq; [reflexivity | congruence].
Qed.

(** With a [get_distance] that returns its exact value, the handler is
    the handler of the exact model. *)
Lemma on_click_run_exact (w : world) (pos : coord) (st : SessionState) :
  on_click_run solve http_get_json polyline_decode get_distance_exact w pos st =
  on_click solve http_get_json polyline_decode w pos st.
Proof.
  unfold on_click_run, on_click, pick_passenger_run, pick_passenger.
  rewrite (@py_min_run_returns Stop (fun x => get_distance_exact pos (coords x))
             (fun x => distance pos (coords x)));
    [reflexivity | intros x _; reflexivity].
Qed.

(** A pick for which [get_distance] raises at a stop of the catalog (its
    [math.sqrt] does, for a stop at the antipode of the pick) is lost: the
    exception leaves [main] with nothing but the position of the click
    recorded. *)
Lemma on_click_run_raises (w : world) (pos : coord) (st : SessionState)
    (metres : Stop -> Z) (pre post : list Stop) (x : Stop) (e : exn) :
  mode st = mode_pass ->
  last_click st <> Some pos ->
  nearby_stops st = pre ++ x :: post ->
  (forall s, In s pre -> get_distance_run pos (coords s) = Ret (metres s)) ->
  get_distance_run pos (coords x) = Raise e ->
  on_click_run solve http_get_json polyline_decode get_distance_run w pos st =
  {| state_after := set_last_click (Some pos) st; calls := []; ending := Raise e |}.
Proof.
  intros Hmode Hfresh Hs Hpre Hx. unfold on_click_run.
  rewrite (@fresh_click pos st Hfresh). cbn [nearby_stops set_last_click mode].
  rewrite Hmode.
  destruct (nearby_stops st) as [| s0 stops] eqn:Hn;
    [destruct pre; discriminate |].
  unfold pick_passenger_run. cbn [nearby_stops set_last_click]. rewrite Hn, Hs.
  rewrite (@py_min_run_raises Stop (fun s => get_distance_run pos (coords s))
             metres pre post x e Hpre Hx).
  reflexivity.
Qed.

(** C8, as amended: for every location pick in adding-passenger mode, with
    a non-empty stop catalog, at a position other than the one of the last
    click, and for which [get_distance] returns for every stop of the
    catalog, the position is resolved to the first stop of the catalog
    that minimizes [get_distance] to it: every stop before it is strictly
    farther, no stop after it is nearer.  With no pending pickup that stop
    becomes the pending pickup, and nothing is recomputed; with a pending
    pickup the request from it to that stop is appended to the request set,
    the pending pickup is cleared, and [update_system] runs. *)
Theorem on_click_adds_passenger (w : world) (pos : coord) (st : SessionState)
    (metres : Stop -> Z) :
  mode st = mode_pass ->
  nearby_stops st <> [] ->
  last_click st <> Some pos ->
  (forall s, In s (nearby_stops st) -> get_distance_run pos (coords s) = Ret (metres s)) ->
  exists earlier target later,
    nearby_stops st = earlier ++ target :: later /\
    (forall s, In s earlier -> (metres target < metres s)%Z) /\
    (forall s, In s later -> (metres target <= metres s)%Z) /\
    on_click_run solve http_get_json polyline_decode get_distance_run w pos st =
    match temp_p st with
    | None =>
        {| state_after := set_temp_p (Some target) (set_last_click (Some pos) st);
           calls := [];
           ending := Ret tt |}
    | Some pickup =>
        update_system solve http_get_json polyline_decode w
          (set_temp_p None
             (set_passengers
                (passengers st ++ [{| start_stop := pickup; end_stop := target |}])
                (set_last_click (Some pos) st)))
    end.
Proof.
  intros Hmode Hstops Hfresh Hkey.
  pose proof (@py_min_run_returns Stop (fun s => get_distance_run pos (coords s))
                metres (nearby_stops st) Hkey) as Hmin.
  destruct (py_min metres (nearby_stops st)) as [target | e |] eqn:Hpy;
    [| destruct (nearby_stops st); [contradiction | discriminate]
     | destruct (nearby_stops st); discriminate].
  destruct (py_min_first metres (nearby_stops st) Hpy)
    as (earlier & later & Heq & Hbefore & Hafter).
  exists earlier, target, later.
  split; [exact Heq |]. split; [exact Hbefore |]. split; [exact Hafter |].
  unfold on_click_run. rewrite (@fresh_click pos st Hfresh).
  cbn [nearby_stops set_last_click mode]. rewrite Hmode.
  destruct (nearby_stops st) as [| s0 stops] eqn:Hn; [contradiction |].
  unfold pick_passenger_run. cbn [nearby_stops set_last_click temp_p passengers].
  rewrite Hn, Hmin. destruct (temp_p st); reflexivity.
Qed.

End Orchestrator.

(** ** The orchestrator on the example session *)

Section OrchestratorExamples.

(** The answer of the road service when it finds no route has no list of
    routes: the raw coordinates come back. *)
Lemma get_osrm_data_fallback_witness :
  get_osrm_data no_route decode_nothing tt [depot_goyang; coords stop_a] =
  Ret ([depot_goyang; coords stop_a], JNum 0, JNum 0).
Proof.
  apply (@get_osrm_data_fallback unit no_route decode_nothing tt
           [depot_goyang; coords stop_a]).
  - cbn. lia.
  - apply (@response_unreadable unit no_route decode_nothing tt
             [depot_goyang; coords stop_a]
             (JObj [("code"%string, JStr "NoRoute");
                    ("message"%string, JStr "Impossible route between points")])).
    + reflexivity.
    + apply routes_missing. reflexivity.
Defined.

(** A network that is down falls back in the same way. *)
Lemma get_osrm_data_network_down :
  get_osrm_data network_down decode_nothing tt [depot_goyang; coords stop_a] =
  Ret ([depot_goyang; coords stop_a], JNum 0, JNum 0).
Proof. reflexivity. Qed.

(** C3, counterexample: a malformed response that [get_osrm_data] does not
    detect.  The first route has a text where its distance should be; the
    [try] raises nothing, so there is no fallback: the text is handed to
    [update_system], whose division raises [TypeError]. *)
Lemma get_osrm_data_text_distance_counterexample :
  let path := [depot_goyang; coords stop_a; coords stop_b; depot_goyang] in
  2 <= length path /\
  is_number (JStr "far") = false /\
  get_osrm_data text_distance decode_nothing tt path = Ret ([], JStr "far", JNum 60) /\
  get_osrm_data text_distance decode_nothing tt path <> Ret (path, JNum 0, JNum 0) /\
  ending (update_system sequential_solver text_distance decode_nothing tt session_goyang)
  = Raise TypeError.
Proof.
  cbv zeta.
  assert (Hget : get_osrm_data text_distance decode_nothing tt
                   [depot_goyang; coords stop_a; coords stop_b; depot_goyang] =
                 Ret ([], JStr "far", JNum 60)) by reflexivity.
  split; [cbn; lia |]. split; [reflexivity |]. split; [exact Hget |].
  split; [rewrite Hget; discriminate |].
  unfold update_system. cbn [passengers depot session_goyang].
  rewrite solve_vrp_goyang, Hget. reflexivity.
Qed.

Lemma update_system_no_requests_witness :
  let after := update_system sequential_solver network_down decode_nothing tt
                 (set_passengers [] session_goyang) in
  current_route_path (state_after after) = None /\
  summary (state_after after) = [] /\
  metrics (state_after after) = (0%R, 0%R) /\
  calls after = [] /\
  ending after = Ret tt.
Proof.
  destruct (@update_system_no_requests unit sequential_solver network_down decode_nothing
              tt (set_passengers [] session_goyang) eq_refl)
    as (H1 & H2 & H3 & H4 & H5 & _).
  cbv zeta. repeat split; assumption.
Defined.

Lemma update_system_no_solution_witness :
  update_system sequential_solver network_down decode_nothing tt
    (set_depot depot_far session_goyang) =
  {| state_after := set_depot depot_far session_goyang;
     calls := [CallOptimizer depot_far [request_ab]];
     ending := Ret tt |}.
Proof.
  apply (@update_system_no_solution unit sequential_solver network_down decode_nothing
           tt (set_depot depot_far session_goyang) []).
  - discriminate.
  - apply solve_vrp_far. exact sequential_solver_sound.
Defined.

Lemma stop_a_not_stop_b : Some (coords stop_b) <> Some (coords stop_a).
Proof.
  unfold stop_a, stop_b. cbn [coords]. intros H. injection H as H. lra.
Qed.

Lemma on_click_adds_passenger_witness :
  exists earlier target later,
    nearby_stops session_goyang = earlier ++ target :: later /\
    (forall s, In s earlier ->
       (distance (coords stop_a) (coords target) < distance (coords stop_a) (coords s))%Z) /\
    (forall s, In s later ->
       (distance (coords stop_a) (coords target) <= distance (coords stop_a) (coords s))%Z) /\
    on_click_run sequential_solver network_down decode_nothing get_distance_exact
      tt (coords stop_a) session_goyang =
    {| state_after :=
         set_temp_p (Some target) (set_last_click (Some (coords stop_a)) session_goyang);
       calls := [];
       ending := Ret tt |}.
Proof.
  apply (@on_click_adds_passenger unit sequential_solver network_down decode_nothing
           get_distance_exact tt (coords stop_a) session_goyang
           (fun s => distance (coords stop_a) (coords s))).
  - reflexivity.
  - discriminate.
  - exact stop_a_not_stop_b.
  - intros s _. reflexivity.
Defined.

(** C8, counterexample: a second pick at the position of the last click,
    in adding-passenger mode, with stops in the catalog and no pending
    pickup: nothing is stored, the session is as before, whatever
    [get_distance] does. *)
Lemma on_click_same_position_counterexample :
  mode session_goyang = mode_pass /\
  nearby_stops session_goyang <> [] /\
  temp_p session_goyang = None /\
  (forall get_distance_run : coord -> coord -> result Z,
     on_click_run sequential_solver network_down decode_nothing get_distance_run
       tt (coords stop_b) session_goyang =
     {| state_after := session_goyang; calls := []; ending := Ret tt |}) /\
  on_click sequential_solver network_down decode_nothing tt (coords stop_b) session_goyang =
  {| state_after := session_goyang; calls := []; ending := Ret tt |} /\
  temp_p (state_after (on_click sequential_solver network_down decode_nothing tt
                         (coords stop_b) session_goyang)) = None.
Proof.
  assert (Hrun : on_click sequential_solver network_down decode_nothing tt
                   (coords stop_b) session_goyang =
                 {| state_after := session_goyang; calls := []; ending := Ret tt |}).
  { unfold on_click. cbn [last_click session_goyang].
    rewrite coord_eqb_refl. reflexivity. }
  repeat split; try reflexivity; try discriminate.
  - intros get_distance_run. unfold on_click_run. cbn [last_click session_goyang].
    rewrite coord_eqb_refl. reflexivity.
  - exact Hrun.
  - rewrite Hrun. reflexivity.
Qed.

End OrchestratorExamples.

(** * Further properties of the code *)

(** ** [get_distance] *)

Section GeoMore.

Local Open Scope R_scope.

Lemma hav_sym (lat1 lon1 lat2 lon2 : R) :
  hav lat1 lon1 lat2 lon2 = hav lat2 lon2 lat1 lon1.
Proof.
  unfold hav. rewrite !sin_half_sq.
  replace (radians (lat2 - lat1)) with (- radians (lat1 - lat2)) by (unfold radians; ring).
  replace (radians (lon2 - lon1)) with (- radians (lon1 - lon2)) by (unfold radians; ring).
  rewrite !cos_neg. ring.
Qed.

(** X1: the distance from A to B is the distance from B to A. *)
Theorem get_distance_symmetric (lat1 lon1 lat2 lon2 : R) :
  get_distance lat1 lon1 lat2 lon2 = get_distance lat2 lon2 lat1 lon1.
Proof.
  unfold get_distance. cbv zeta. rewrite (hav_sym lat1 lon1 lat2 lon2). reflexivity.
Qed.

(** X2: every coordinate is at distance zero from itself. *)
Theorem get_distance_identity (p : coord) : distance p p = 0%Z.
Proof. unfold distance. apply get_distance_same. Qed.

(** X3: a distance is never negative and never more than half of the
    circumference of the Earth, [R * PI] metres. *)
Theorem get_distance_range (lat1 lon1 lat2 lon2 : R) :
  (0 <= get_distance lat1 lon1 lat2 lon2)%Z /\
  IZR (get_distance lat1 lon1 lat2 lon2) <= IZR R_earth * PI.
Proof.
  split; [apply get_distance_nonneg |].
  rewrite get_distance_floor.
  pose proof (central_angle_spec lat1 lon1 lat2 lon2) as [[_ Hhi] _].
  pose proof (Zfloor_bound (IZR R_earth * central_angle lat1 lon1 lat2 lon2)) as [Hfl _].
  assert (HR : 0 < IZR R_earth) by (unfold R_earth; apply IZR_lt; lia).
  apply Rle_trans with (1 := Hfl).
  apply Rmult_le_compat_l; lra.
Qed.

End GeoMore.

(** ** [solve_vrp] *)

Section OptimizerMore.

Lemma nth_error_seq0 (n k : nat) : k < n -> nth_error (seq 0 n) k = Some k.
Proof.
  intros Hk. rewrite (nth_error_nth' _ 0) by (rewrite length_seq; exact Hk).
  rewrite seq_nth by exact Hk. reflexivity.
Qed.

(** X6: the loop over the passengers keeps its books: the depot is
    location 0, there are two locations and one pair for each request, and
    the pair of the [k]-th request, [(2k+1, 2k+2)], points at the pickup and
    at the dropoff of that request. *)
Theorem build_nodes_indexing (depot : coord) (ps : list Passenger) :
  length (fst (build_nodes depot ps)) = 2 * length ps + 1 /\
  nth_error (fst (build_nodes depot ps)) 0 = Some depot /\
  length (snd (build_nodes depot ps)) = length ps /\
  forall k p, nth_error ps k = Some p ->
    nth_error (snd (build_nodes depot ps)) k = Some (2 * k + 1, 2 * k + 2) /\
    nth_error (fst (build_nodes depot ps)) (2 * k + 1) = Some (coords (start_stop p)) /\
    nth_error (fst (build_nodes depot ps)) (2 * k + 2) = Some (coords (end_stop p)).
Proof.
  rewrite build_nodes_spec. cbn [fst snd].
  split; [cbn [length]; rewrite length_stops; lia |].
  split; [reflexivity |].
  split; [rewrite length_map, length_seq; reflexivity |].
  intros k p Hk.
  assert (Hklt : k < length ps) by (apply nth_error_Some; congruence).
  destruct (loc_at_request depot ps k Hk) as [Hs He]. unfold loc_at in Hs, He.
  split; [| split].
  - rewrite nth_error_map, nth_error_seq0 by exact Hklt. reflexivity.
  - rewrite (nth_error_nth' _ (0%R, 0%R)).
    + exact (f_equal Some Hs).
    + cbn [length]. rewrite length_stops. lia.
  - rewrite (nth_error_nth' _ (0%R, 0%R)).
    + exact (f_equal Some He).
    + cbn [length]. rewrite length_stops. lia.
Qed.

Lemma build_nodes_indexing_witness :
  nth_error (snd (build_nodes depot_goyang [request_ab])) 0 = Some (2 * 0 + 1, 2 * 0 + 2) /\
  nth_error (fst (build_nodes depot_goyang [request_ab])) (2 * 0 + 1)
    = Some (coords (start_stop request_ab)) /\
  nth_error (fst (build_nodes depot_goyang [request_ab])) (2 * 0 + 2)
    = Some (coords (end_stop request_ab)).
Proof.
  destruct (build_nodes_indexing depot_goyang [request_ab]) as (_ & _ & _ & H).
  apply (H 0 request_ab). reflexivity.
Defined.

(** X7: the [while] loop of [solve_vrp] stops within [len(locs)] turns or
    never: its outcome with any number of turns, if it has one, is its
    outcome with [num_nodes] turns. *)
Theorem read_path_stops_within_nodes (mgr : RoutingIndexManager) (locs : list coord)
    (a : Assignment) (fuel i : nat) (path : list coord) :
  read_path mgr locs a fuel i path <> Diverge ->
  read_path mgr locs a (num_nodes mgr) i path = read_path mgr locs a fuel i path.
Proof. apply read_path_enough_fuel. Qed.

Lemma read_path_stops_within_nodes_witness :
  read_path {| num_nodes := 1; num_vehicles := 1; depot_node := 0 |} [depot_goyang] [1] 1 0 []
  = read_path {| num_nodes := 1; num_vehicles := 1; depot_node := 0 |} [depot_goyang] [1] 7 0 [].
Proof.
  apply (@read_path_stops_within_nodes
           {| num_nodes := 1; num_vehicles := 1; depot_node := 0 |} [depot_goyang] [1] 7 0 []).
  cbn. discriminate.
Defined.

Variable world : Type.
Variable solve : world -> RoutingModel -> FirstSolutionStrategy -> option Assignment.
Hypothesis solve_sound : solver_sound solve.

(** X8: with a sound solver [solve_vrp] returns: it raises nothing, its
    loop stops, and the path it returns is empty exactly when there is no
    solution. *)
Theorem solve_vrp_returns (w : world) (depot : coord) (ps : list Passenger) :
  exists sol path,
    solve_vrp solve w depot ps = Ret (sol, path) /\
    (sol = None <-> path = []).
Proof.
  destruct (solve_vrp_cases solve_sound w depot ps)
    as [[_ Hnone] | (a & r & _ & Hsome & _)].
  - exists None, []. split; [exact Hnone | tauto].
  - exists (Some a), (map (loc_at (depot :: flat_map stops_of ps)) r ++ [depot]).
    split; [exact Hsome |].
    split; [discriminate |].
    intros H. apply app_eq_nil in H as [_ H]. discriminate.
Qed.

End OptimizerMore.

Section OptimizerMoreExamples.

Lemma solve_vrp_returns_witness :
  exists sol path,
    solve_vrp sequential_solver tt depot_goyang [request_ab] = Ret (sol, path) /\
    (sol = None <-> path = []).
Proof.
  apply (@solve_vrp_returns unit sequential_solver sequential_solver_sound
           tt depot_goyang [request_ab]).
Defined.

End OptimizerMoreExamples.

(** ** [get_osrm_data] and [update_system] *)

Section OrchestratorMore.

Variable world : Type.
Variable solve : world -> RoutingModel -> FirstSolutionStrategy -> option Assignment.
Variable http_get_json : world -> list (R * R) -> result json.
Variable polyline_decode : json -> result (list coord).

Local Abbreviation osrm := (get_osrm_data http_get_json polyline_decode).
Local Abbreviation update := (update_system solve http_get_json polyline_decode).

(** X11: [get_osrm_data] raises nothing, whatever the coordinate list and
    whatever the road service answers. *)
Theorem get_osrm_data_never_raises (w : world) (coords_list : list coord) (e : exn) :
  osrm w coords_list <> Raise e.
Proof.
  unfold get_osrm_data. destruct (length coords_list <? 2); [discriminate |].
  unfold try_except. destruct (osrm_route _ _ _ _); discriminate.
Qed.

Lemma get_osrm_data_except (w : world) (coords_list : list coord) :
  2 <= length coords_list ->
  road_service_fails http_get_json polyline_decode w coords_list ->
  osrm w coords_list = Ret (coords_list, JNum 0, JNum 0).
Proof.
  intros Hlen Hfail. unfold get_osrm_data.
  destruct (Nat.ltb_spec (length coords_list) 2) as [Hlt | _]; [lia |].
  unfold osrm_route.
  destruct Hfail as [e Hreq | r e Hreq Hbody]; rewrite Hreq; cbn [bind];
    [| rewrite Hbody]; reflexivity.
Qed.

Lemma update_system_keeps (w : world) (st : SessionState) :
  depot (state_after (update w st)) = depot st /\
  passengers (state_after (update w st)) = passengers st /\
  nearby_stops (state_after (update w st)) = nearby_stops st /\
  temp_p (state_after (update w st)) = temp_p st /\
  last_click (state_after (update w st)) = last_click st /\
  mode (state_after (update w st)) = mode st.
Proof.
  unfold update_system.
  destruct (passengers st) as [| p ps] eqn:Hp.
  - cbn. rewrite Hp. repeat split; reflexivity.
  - destruct (solve_vrp solve w (depot st) (p :: ps)) as [[[sol |] path] | e |];
      try (rewrite <- Hp; repeat split; reflexivity).
    destruct (get_osrm_data http_get_json polyline_decode w path)
      as [[[road dist] dur] | e |];
      try (rewrite <- Hp; repeat split; reflexivity).
    destruct (py_truediv dist 1000) as [km | e |];
      destruct (py_truediv dur 60) as [minutes | e' |];
      cbn; rewrite <- ?Hp; repeat split; reflexivity.
Qed.

(** X12: [update_system] never touches the depot, the request set, the
    stop catalog, the pending pickup, the last click or the mode, however
    it ends. *)
Theorem update_system_frame (w : world) (st : SessionState) :
  depot (state_after (update w st)) = depot st /\
  passengers (state_after (update w st)) = passengers st /\
  nearby_stops (state_after (update w st)) = nearby_stops st /\
  temp_p (state_after (update w st)) = temp_p st /\
  last_click (state_after (update w st)) = last_click st /\
  mode (state_after (update w st)) = mode st.
Proof. apply update_system_keeps. Qed.

(** X13: running [update_system] a second time, in the same world,
    changes nothing: the state it leaves is the state it finds. *)
Theorem update_system_idempotent (w : world) (st : SessionState) :
  update w (state_after (update w st)) = update w st.
Proof.
  unfold update_system at 2 3.
  destruct (passengers st) as [| p ps] eqn:Hp.
  - unfold update_system. cbn. rewrite Hp. reflexivity.
  - destruct (solve_vrp solve w (depot st) (p :: ps)) as [[[sol |] path] | e |] eqn:Hsv.
    + destruct (get_osrm_data http_get_json polyline_decode w path)
        as [[[road dist] dur] | e |] eqn:Hosrm.
      * destruct (py_truediv dist 1000) as [km | e |] eqn:Hd;
          destruct (py_truediv dur 60) as [minutes | e' |] eqn:Hu;
          unfold update_system; cbn [state_after passengers depot set_summary set_metrics
                                       set_current_route_path];
          rewrite Hp, Hsv, Hosrm, Hd; rewrite ?Hu; reflexivity.
      * unfold update_system. cbn [state_after]. rewrite Hp, Hsv, Hosrm. reflexivity.
      * unfold update_system. cbn [state_after]. rewrite Hp, Hsv, Hosrm. reflexivity.
    + unfold update_system. cbn [state_after]. rewrite Hp, Hsv. reflexivity.
    + unfold update_system. cbn [state_after]. rewrite Hp, Hsv. reflexivity.
    + unfold update_system. cbn [state_after]. rewrite Hp, Hsv. reflexivity.
Qed.

Lemma stop_name_depot (st : SessionState) : stop_name st (depot st) = "차고지"%string.
Proof. unfold stop_name. rewrite coord_eqb_refl. reflexivity. Qed.

Hypothesis solve_sound : solver_sound solve.

(** X14: when there are requests, the optimizer has a solution and the
    road service fails, [update_system] falls back to the straight legs of
    the optimizer: the route plan shows the path of the
    solution itself, zero kilometres and zero minutes, and the names of its
    stops; nothing is raised. *)
Theorem update_system_road_service_down (w : world) (st : SessionState)
    (sol : Assignment) (path : list coord) :
  passengers st <> [] ->
  solve_vrp solve w (depot st) (passengers st) = Ret (Some sol, path) ->
  road_service_fails http_get_json polyline_decode w path ->
  current_route_path (state_after (update w st)) = Some path /\
  metrics (state_after (update w st)) = (0%R, 0%R) /\
  summary (state_after (update w st)) = map (stop_name st) path /\
  calls (update w st) =
    [CallOptimizer (depot st) (passengers st); CallRoadService path] /\
  ending (update w st) = Ret tt.
Proof.
  intros Hne Hsv Hfail.
  assert (Hlen : 2 <= length path).
  { destruct (solve_vrp_cases solve_sound w (depot st) (passengers st))
      as [[_ Hnone] | (a & r & _ & Hsome & Hr & _)]; [congruence |].
    rewrite Hsome in Hsv. injection Hsv as _ Hpath.
    rewrite <- Hpath, length_app, length_map. cbn [length]. lia. }
  unfold update_system.
  destruct (passengers st) as [| p ps] eqn:Hp; [contradiction |].
  rewrite Hsv, (get_osrm_data_except Hlen Hfail).
  cbn [py_truediv state_after calls ending current_route_path metrics summary
       set_summary set_metrics set_current_route_path app].
  replace (0 / 1000)%R with 0%R by (unfold Rdiv; ring).
  replace (0 / 60)%R with 0%R by (unfold Rdiv; ring).
  repeat split; reflexivity.
Qed.

(** X15: the route plan is not replaced in one piece.  When the optimizer
    has a solution and the road service answers with a distance that is
    not a number (a text, a list, an object, null), [dist / 1000] raises
    [TypeError] after [update_system] has stored the new path: the path is
    new, the metrics and the stop names are those of the previous plan. *)
Theorem update_system_partial_update (w : world) (st : SessionState)
    (sol : Assignment) (path road : list coord) (dist dur : json) :
  passengers st <> [] ->
  solve_vrp solve w (depot st) (passengers st) = Ret (Some sol, path) ->
  osrm w path = Ret (road, dist, dur) ->
  is_number dist = false ->
  ending (update w st) = Raise TypeError /\
  current_route_path (state_after (update w st)) = Some road /\
  metrics (state_after (update w st)) = metrics st /\
  summary (state_after (update w st)) = summary st.
Proof.
  intros Hne Hsv Hosrm Hbad. unfold update_system.
  destruct (passengers st) as [| p ps] eqn:Hp; [contradiction |].
  rewrite Hsv, Hosrm.
  destruct dist; cbn in Hbad; try discriminate; cbn; repeat split; reflexivity.
Qed.

(** X16: when there are [n] requests, the optimizer has a solution and
    [update_system] ends normally, the summary names the coordinates of the
    path of the solution, one by one: [2n+2] names, the first and the last of
    them the name of the depot. *)
Theorem update_system_summary_shape (w : world) (st : SessionState)
    (sol : Assignment) (path : list coord) :
  passengers st <> [] ->
  solve_vrp solve w (depot st) (passengers st) = Ret (Some sol, path) ->
  ending (update w st) = Ret tt ->
  summary (state_after (update w st)) = map (stop_name st) path /\
  length (summary (state_after (update w st))) = 2 * length (passengers st) + 2 /\
  nth_error (summary (state_after (update w st))) 0 = Some "차고지"%string /\
  nth_error (summary (state_after (update w st))) (2 * length (passengers st) + 1)
    = Some "차고지"%string.
Proof.
  intros Hne Hsv Hend.
  assert (Hsum : summary (state_after (update w st)) = map (stop_name st) path).
  { unfold update_system in *.
    destruct (passengers st) as [| p ps] eqn:Hp; [contradiction |].
    rewrite Hsv in *.
    destruct (get_osrm_data http_get_json polyline_decode w path)
      as [[[road dist] dur] | e |]; try discriminate.
    destruct (py_truediv dist 1000) as [km | e |]; try discriminate;
      destruct (py_truediv dur 60) as [minutes | e' |]; try discriminate.
    reflexivity. }
  split; [exact Hsum |]. rewrite Hsum.
  destruct (solve_vrp_cases solve_sound w (depot st) (passengers st))
    as [[_ Hnone] | (a & r & _ & Hsome & Hr & Hhd & _)]; [congruence |].
  rewrite Hsome in Hsv. injection Hsv as _ Hpath. rewrite <- Hpath.
  destruct r as [| x r']; [cbn in Hr; lia |]. cbn [hd] in Hhd. subst x.
  split; [rewrite length_map, length_app, length_map; cbn [length] in *; lia |].
  split.
  - cbn [map app nth_error]. unfold loc_at. cbn [nth]. rewrite stop_name_depot. reflexivity.
  - rewrite map_app. rewrite nth_error_app2 by (rewrite !length_map; lia).
    rewrite !length_map, Hr, Nat.sub_diag. cbn [map nth_error].
    rewrite stop_name_depot. reflexivity.
Qed.

End OrchestratorMore.

(** ** The clicks and the buttons of [main] *)

Section ClicksMore.

Variable world : Type.
Variable solve : world -> RoutingModel -> FirstSolutionStrategy -> option Assignment.
Variable http_get_json : world -> list (R * R) -> result json.
Variable polyline_decode : json -> result (list coord).

Local Abbreviation update := (update_system solve http_get_json polyline_decode).
Local Abbreviation click := (on_click solve http_get_json polyline_decode).
Local Abbreviation delete := (delete_passenger solve http_get_json polyline_decode).

Lemma on_click_stale (w : world) (pos : coord) (st : SessionState) :
  last_click st = Some pos ->
  click w pos st = {| state_after := st; calls := []; ending := Ret tt |}.
Proof.
  intros H. unfold on_click. rewrite H, coord_eqb_refl. reflexivity.
Qed.

Lemma on_click_fresh (w : world) (pos : coord) (st : SessionState) :
  last_click st <> Some pos ->
  click w pos st =
  match nearby_stops st with
  | [] => {| state_after := set_last_click (Some pos) st; calls := []; ending := Ret tt |}
  | _ :: _ =>
      match mode st with
      | mode_depot => update w (set_depot pos (set_last_click (Some pos) st))
      | mode_pass =>
          pick_passenger solve http_get_json polyline_decode w pos
            (set_last_click (Some pos) st)
      | idle =>
          {| state_after := set_last_click (Some pos) st; calls := []; ending := Ret tt |}
      end
  end.
Proof.
  intros H. unfold on_click.
  assert (Hf : match last_click st with
               | Some c => negb (coord_eqb pos c)
               | None => true
               end = true).
  { destruct (last_click st) as [c |]; [| reflexivity].
    rewrite coord_eqb_neq; [reflexivity | congruence]. }
  rewrite Hf. reflexivity.
Qed.

Lemma last_click_dec (pos : coord) (st : SessionState) :
  last_click st = Some pos \/ last_click st <> Some pos.
Proof.
  destruct (last_click st) as [c |]; [| right; discriminate].
  destruct (coord_eq_dec c pos) as [-> | Hne]; [left; reflexivity | right; congruence].
Qed.

(** X17: a click at the position of the last click is ignored, in every
    mode: the session stays as it is and nothing is recomputed. *)
Theorem on_click_repeated_ignored (w : world) (pos : coord) (st : SessionState) :
  last_click st = Some pos ->
  click w pos st = {| state_after := st; calls := []; ending := Ret tt |}.
Proof. apply on_click_stale. Qed.

(** X18: with an empty stop catalog a click does nothing but record its
    position, in every mode: the depot cannot be moved either. *)
Theorem on_click_empty_catalog (w : world) (pos : coord) (st : SessionState) :
  nearby_stops st = [] ->
  (state_after (click w pos st) = st \/
   state_after (click w pos st) = set_last_click (Some pos) st) /\
  depot (state_after (click w pos st)) = depot st /\
  calls (click w pos st) = [] /\
  ending (click w pos st) = Ret tt.
Proof.
  intros Hs. destruct (last_click_dec pos st) as [Hl | Hl].
  - rewrite (@on_click_stale w pos st Hl). cbn. auto.
  - rewrite (@on_click_fresh w pos st Hl), Hs. cbn. auto.
Qed.

(** X19: in depot mode, with stops in the catalog, a click at a new
    position moves the depot there, keeps the requests and recomputes the
    route from the new depot. *)
Theorem on_click_moves_depot (w : world) (pos : coord) (st : SessionState) :
  mode st = mode_depot ->
  nearby_stops st <> [] ->
  last_click st <> Some pos ->
  depot (state_after (click w pos st)) = pos /\
  passengers (state_after (click w pos st)) = passengers st /\
  (passengers st <> [] ->
   hd_error (calls (click w pos st)) = Some (CallOptimizer pos (passengers st))).
Proof.
  intros Hm Hs Hl. rewrite (@on_click_fresh w pos st Hl), Hm.
  destruct (nearby_stops st) as [| s0 stops]; [contradiction |].
  destruct (update_system_keeps solve http_get_json polyline_decode w
              (set_depot pos (set_last_click (Some pos) st))) as (Hd & Hp & _).
  split; [exact Hd |]. split; [exact Hp |].
  intros Hne. unfold update_system. cbn [passengers depot set_depot set_last_click].
  destruct (passengers st) as [| p ps]; [contradiction |].
  destruct (solve_vrp solve w pos (p :: ps)) as [[[sol |] path] | e |]; try reflexivity.
  destruct (get_osrm_data http_get_json polyline_decode w path)
    as [[[road dist] dur] | e |]; try reflexivity.
  destruct (py_truediv dist 1000); destruct (py_truediv dur 60); reflexivity.
Qed.


(** X21: a click never changes the stop catalog or the mode, and never
    removes a request: the request set after the click is the one before,
    with at most one request more at its end. *)
Theorem on_click_frame (w : world) (pos : coord) (st : SessionState) :
  nearby_stops (state_after (click w pos st)) = nearby_stops st /\
  mode (state_after (click w pos st)) = mode st /\
  exists added,
    passengers (state_after (click w pos st)) = passengers st ++ added /\
    length added <= 1.
Proof.
  destruct (last_click_dec pos st) as [Hl | Hl].
  - rewrite (@on_click_stale w pos st Hl). cbn.
    repeat split. exists []. rewrite app_nil_r. split; [reflexivity | cbn; lia].
  - rewrite (@on_click_fresh w pos st Hl).
    destruct (nearby_stops st) as [| s0 stops] eqn:Hn.
    + cbn. rewrite Hn. repeat split. exists []. rewrite app_nil_r. split; [reflexivity | cbn; lia].
    + destruct (mode st) eqn:Hm.
      * cbn. rewrite Hn, Hm. repeat split. exists []. rewrite app_nil_r.
        split; [reflexivity | cbn; lia].
      * destruct (update_system_keeps solve http_get_json polyline_decode w
                    (set_depot pos (set_last_click (Some pos) st)))
          as (_ & Hp & Hs & _ & _ & Hmo).
        rewrite Hp, Hs, Hmo. cbn. rewrite Hn, Hm. repeat split.
        exists []. rewrite app_nil_r. split; [reflexivity | cbn; lia].
      * unfold pick_passenger. cbn [nearby_stops set_last_click temp_p passengers].
        rewrite Hn. cbn [py_min].
        destruct (temp_p st) as [pickup |].
        -- match goal with
           | |- context [update_system _ _ _ w ?s] =>
               destruct (update_system_keeps solve http_get_json polyline_decode w s)
                 as (_ & Hp & Hs & _ & _ & Hmo)
           end.
           rewrite Hp, Hs, Hmo. cbn. rewrite Hn, Hm. repeat split.
           eexists. split; [reflexivity | cbn; lia].
        -- cbn. rewrite Hn, Hm. repeat split. exists []. rewrite app_nil_r.
           split; [reflexivity | cbn; lia].
Qed.


(** X23: the reset button needs no recomputation: the state it leaves is
    the cleared state of [update_system], which finds nothing to change and
    calls nobody. *)
Theorem press_reset_is_cleared (w : world) (st : SessionState) :
  update w (press_reset st) =
  {| state_after := press_reset st; calls := []; ending := Ret tt |}.
Proof. reflexivity. Qed.

(** X24: the reset button keeps the last click.  After a reset and the
    choice of a mode, a click at the position of the last click before the
    reset is still ignored. *)
Theorem reset_keeps_last_click (w : world) (pos : coord) (st : SessionState) :
  last_click st = Some pos ->
  click w pos (press_add_passenger (press_reset st)) =
    {| state_after := press_add_passenger (press_reset st); calls := []; ending := Ret tt |}
  /\
  click w pos (press_edit_depot (press_reset st)) =
    {| state_after := press_edit_depot (press_reset st); calls := []; ending := Ret tt |}.
Proof.
  intros Hl. split; apply on_click_stale; exact Hl.
Qed.

(** X25: deleting the only request clears the route plan, with no call to
    the optimizer or to the road service. *)
Theorem delete_only_passenger (w : world) (st : SessionState) (p : Passenger) :
  passengers st = [p] ->
  passengers (state_after (delete w 0 st)) = [] /\
  current_route_path (state_after (delete w 0 st)) = None /\
  summary (state_after (delete w 0 st)) = [] /\
  metrics (state_after (delete w 0 st)) = (0%R, 0%R) /\
  calls (delete w 0 st) = [] /\
  ending (delete w 0 st) = Ret tt.
Proof.
  intros Hp. unfold delete_passenger. rewrite Hp. cbn. repeat split; reflexivity.
Qed.

(** X26: deleting removes the request of the button and no other: the
    requests before it and after it stay, in their order; past the end of
    the list nothing is removed and [IndexError] is raised. *)
Theorem delete_passenger_removes_one (w : world) (i : nat) (st : SessionState) :
  (i < length (passengers st) ->
   passengers (state_after (delete w i st)) =
     firstn i (passengers st) ++ skipn (S i) (passengers st) /\
   length (passengers (state_after (delete w i st))) = length (passengers st) - 1) /\
  (length (passengers st) <= i ->
   delete w i st = {| state_after := st; calls := []; ending := Raise IndexError |}).
Proof.
  unfold delete_passenger, py_pop. split; intros Hi.
  - destruct (Nat.ltb_spec i (length (passengers st))) as [_ | Hge]; [| lia].
    destruct (update_system_keeps solve http_get_json polyline_decode w
                (set_passengers (firstn i (passengers st) ++ skipn (S i) (passengers st)) st))
      as (_ & Hp & _).
    rewrite Hp. cbn [passengers set_passengers]. split; [reflexivity |].
    rewrite length_app, length_firstn, length_skipn. lia.
  - destruct (Nat.ltb_spec i (length (passengers st))) as [Hlt | _]; [lia | reflexivity].
Qed.

(** X27: deleting the request that two picks have just added gives the
    request set back as it was. *)
Theorem delete_undoes_add (w : world) (st : SessionState) (ps : list Passenger)
    (p : Passenger) :
  passengers st = ps ++ [p] ->
  passengers (state_after (delete w (length ps) st)) = ps.
Proof.
  intros Hp. unfold delete_passenger, py_pop. rewrite Hp, length_app. cbn [length].
  destruct (Nat.ltb_spec (length ps) (length ps + 1)) as [_ | Hge]; [| lia].
  match goal with
  | |- context [update_system _ _ _ w ?s] =>
      destruct (update_system_keeps solve http_get_json polyline_decode w s) as (_ & Hk & _)
  end.
  rewrite Hk. cbn [passengers set_passengers].
  rewrite firstn_app, Nat.sub_diag, firstn_all, firstn_O, app_nil_r.
  rewrite skipn_app, skipn_all2 by lia.
  replace (S (length ps) - length ps) with 1 by lia.
  cbn [skipn app]. rewrite ?app_nil_r. reflexivity.
Qed.

(** X28: the mode buttons and a depot edit leave the pending pickup where
    it is: a pickup chosen before the depot is moved is still pending when
    the user comes back to adding passengers. *)
Theorem pending_pickup_survives_depot_edit (w : world) (pos : coord) (st : SessionState) :
  temp_p (press_add_passenger (state_after (click w pos (press_edit_depot st)))) = temp_p st.
Proof.
  cbn [press_add_passenger set_mode temp_p].
  destruct (last_click_dec pos (press_edit_depot st)) as [Hl | Hl].
  - rewrite (@on_click_stale w pos (press_edit_depot st) Hl). reflexivity.
  - rewrite (@on_click_fresh w pos (press_edit_depot st) Hl).
    cbn [nearby_stops mode press_edit_depot set_mode].
    destruct (nearby_stops st) as [| s0 stops]; [reflexivity |].
    match goal with
    | |- context [update_system _ _ _ w ?s] =>
        destruct (update_system_keeps solve http_get_json polyline_decode w s)
          as (_ & _ & _ & Ht & _)
    end.
    rewrite Ht. reflexivity.
Qed.

End ClicksMore.

(** ** [fetch_stops_goyang] *)

Section CatalogMore.

Variable world : Type.
Variable overpass_get_json : world -> result json.

Lemma stops_of_elements_none (es : list json) (e : json) :
  In e es -> stop_of_element e = None -> stops_of_elements es = None.
Proof.
  induction es as [| x es IH]; intros Hin He; [destruct Hin |].
  cbn [stops_of_elements]. destruct Hin as [-> | Hin].
  - rewrite He. reflexivity.
  - destruct (stop_of_element x); [| reflexivity].
    rewrite (IH Hin He). reflexivity.
Qed.

Lemma stops_of_elements_some (es : list json) :
  (forall e, In e es -> stop_of_element e <> None) ->
  exists stops,
    stops_of_elements es = Some stops /\ map Some stops = map stop_of_element es.
Proof.
  induction es as [| x es IH]; intros Hall.
  - exists []. split; reflexivity.
  - destruct IH as (stops & Hs & Hm); [intros e He; apply Hall; right; exact He |].
    destruct (stop_of_element x) as [s |] eqn:Hx;
      [| exfalso; apply (Hall x); [left; reflexivity | exact Hx]].
    exists (s :: stops). cbn [stops_of_elements map]. rewrite Hx, Hs, Hm. split; reflexivity.
Qed.

(** X29: the catalog is all or nothing.  When one element of the response
    has no latitude or no longitude, [fetch_stops_goyang] returns the empty
    list, whatever the other elements are. *)
Theorem fetch_stops_all_or_nothing (w : world) (data : json) (es : list json) (e : json) :
  overpass_get_json w = Ret data ->
  dict_get data "elements" (JArr []) = Some (JArr es) ->
  In e es ->
  getitem_opt e "lat" = None \/ getitem_opt e "lon" = None ->
  fetch_stops_goyang overpass_get_json w = Ret [].
Proof.
  intros Hget Hels Hin Hbad.
  assert (He : stop_of_element e = None).
  { unfold stop_of_element.
    destruct (dict_get e "tags" (JObj [])) as [tags |]; [| reflexivity].
    destruct (dict_get tags "name" (JStr "정류장")) as [nm |]; [| reflexivity].
    destruct Hbad as [Hb | Hb]; rewrite Hb; [reflexivity |].
    destruct (getitem_opt e "lat"); reflexivity. }
  unfold fetch_stops_goyang, stops_of_response. rewrite Hget, Hels. cbn [py_iter].
  rewrite (stops_of_elements_none es e Hin He). reflexivity.
Qed.

(** X30: when every element of the response gives a stop, the catalog has
    one stop for each element, in the order of the response. *)
Theorem fetch_stops_in_order (w : world) (data : json) (es : list json) :
  overpass_get_json w = Ret data ->
  dict_get data "elements" (JArr []) = Some (JArr es) ->
  (forall e, In e es -> stop_of_element e <> None) ->
  exists stops,
    fetch_stops_goyang overpass_get_json w = Ret stops /\
    map Some stops = map stop_of_element es.
Proof.
  intros Hget Hels Hall.
  destruct (stops_of_elements_some es Hall) as (stops & Hs & Hm).
  exists stops. split; [| exact Hm].
  unfold fetch_stops_goyang, stops_of_response. rewrite Hget, Hels. cbn [py_iter].
  rewrite Hs. reflexivity.
Qed.

End CatalogMore.

(** ** The further properties on the example session *)

Section MoreExamples.

Local Abbreviation path_goyang :=
  [depot_goyang; coords stop_a; coords stop_b; depot_goyang].

Lemma update_system_road_service_down_witness :
  current_route_path
    (state_after (update_system sequential_solver network_down decode_nothing tt
                    session_goyang)) = Some path_goyang /\
  metrics
    (state_after (update_system sequential_solver network_down decode_nothing tt
                    session_goyang)) = (0%R, 0%R).
Proof.
  destruct (@update_system_road_service_down unit sequential_solver network_down
              decode_nothing sequential_solver_sound tt session_goyang [1; 2; 3]
              path_goyang)
    as (H1 & H2 & _).
  - discriminate.
  - exact solve_vrp_goyang.
  - apply (@request_fails unit network_down decode_nothing tt path_goyang ConnectionError).
    reflexivity.
  - split; [exact H1 | exact H2].
Defined.

Lemma update_system_partial_update_witness :
  ending (update_system sequential_solver text_distance decode_nothing tt session_goyang)
    = Raise TypeError /\
  current_route_path
    (state_after (update_system sequential_solver text_distance decode_nothing tt
                    session_goyang)) = Some [] /\
  metrics
    (state_after (update_system sequential_solver text_distance decode_nothing tt
                    session_goyang)) = metrics session_goyang /\
  summary
    (state_after (update_system sequential_solver text_distance decode_nothing tt
                    session_goyang)) = summary session_goyang.
Proof.
  apply (@update_system_partial_update unit sequential_solver text_distance decode_nothing
           tt session_goyang [1; 2; 3] path_goyang [] (JStr "far") (JNum 60)).
  - discriminate.
  - exact solve_vrp_goyang.
  - reflexivity.
  - reflexivity.
Defined.

Lemma update_system_goyang_ends :
  ending (update_system sequential_solver one_route decode_nothing tt session_goyang)
  = Ret tt.
Proof.
  unfold update_system.
  change (passengers session_goyang) with [request_ab].
  change (depot session_goyang) with depot_goyang.
  rewrite solve_vrp_goyang. reflexivity.
Qed.

Lemma update_system_summary_shape_witness :
  length (summary (state_after (update_system sequential_solver one_route decode_nothing
                                  tt session_goyang))) = 2 * 1 + 2 /\
  nth_error (summary (state_after (update_system sequential_solver one_route
                                     decode_nothing tt session_goyang))) 0
  = Some "차고지"%string.
Proof.
  destruct (@update_system_summary_shape unit sequential_solver one_route decode_nothing
              sequential_solver_sound tt session_goyang [1; 2; 3] path_goyang)
    as (_ & H2 & H3 & _).
  - discriminate.
  - exact solve_vrp_goyang.
  - exact update_system_goyang_ends.
  - split; [exact H2 | exact H3].
Defined.

Lemma on_click_repeated_ignored_witness :
  on_click sequential_solver network_down decode_nothing tt (coords stop_b) session_goyang =
  {| state_after := session_goyang; calls := []; ending := Ret tt |}.
Proof.
  apply (@on_click_repeated_ignored unit sequential_solver network_down decode_nothing
           tt (coords stop_b) session_goyang).
  reflexivity.
Defined.

Lemma on_click_empty_catalog_witness :
  depot (state_after (on_click sequential_solver network_down decode_nothing tt
                        depot_far (press_edit_depot (initial_state []))))
  = depot (press_edit_depot (initial_state [])).
Proof.
  destruct (@on_click_empty_catalog unit sequential_solver network_down decode_nothing
              tt depot_far (press_edit_depot (initial_state [])) eq_refl)
    as (_ & H & _).
  exact H.
Defined.

Lemma click_far_is_new : last_click (press_edit_depot session_goyang) <> Some depot_far.
Proof.
  cbn. unfold stop_b, depot_far. cbn [coords]. intros H. injection H as H. lra.
Qed.

Lemma on_click_moves_depot_witness :
  depot (state_after (on_click sequential_solver network_down decode_nothing tt
                        depot_far (press_edit_depot session_goyang))) = depot_far.
Proof.
  destruct (@on_click_moves_depot unit sequential_solver network_down decode_nothing
              tt depot_far (press_edit_depot session_goyang)) as (H & _).
  - reflexivity.
  - discriminate.
  - exact click_far_is_new.
  - exact H.
Defined.




Lemma reset_keeps_last_click_witness :
  on_click sequential_solver network_down decode_nothing tt (coords stop_b)
    (press_add_passenger (press_reset session_goyang)) =
  {| state_after := press_add_passenger (press_reset session_goyang);
     calls := []; ending := Ret tt |}.
Proof.
  destruct (@reset_keeps_last_click unit sequential_solver network_down decode_nothing
              tt (coords stop_b) session_goyang eq_refl) as [H _].
  exact H.
Defined.

Lemma delete_only_passenger_witness :
  passengers (state_after (delete_passenger sequential_solver network_down decode_nothing
                             tt 0 session_goyang)) = [] /\
  current_route_path (state_after (delete_passenger sequential_solver network_down
                                     decode_nothing tt 0 session_goyang)) = None.
Proof.
  destruct (@delete_only_passenger unit sequential_solver network_down decode_nothing
              tt session_goyang request_ab eq_refl) as (H1 & H2 & _).
  split; [exact H1 | exact H2].
Defined.

Lemma delete_passenger_removes_one_witness :
  length (passengers (state_after (delete_passenger sequential_solver network_down
                                     decode_nothing tt 0 session_goyang)))
  = length (passengers session_goyang) - 1.
Proof.
  destruct (@delete_passenger_removes_one unit sequential_solver network_down
              decode_nothing tt 0 session_goyang) as [H _].
  destruct H as [_ H]; [cbn; lia | exact H].
Defined.

Lemma delete_undoes_add_witness :
  passengers (state_after (delete_passenger sequential_solver network_down decode_nothing
                             tt (length (@nil Passenger)) session_goyang)) = [].
Proof.
  apply (@delete_undoes_add unit sequential_solver network_down decode_nothing
           tt session_goyang [] request_ab).
  reflexivity.
Defined.

Lemma fetch_stops_all_or_nothing_witness :
  fetch_stops_goyang overpass_two tt = Ret [].
Proof.
  apply (@fetch_stops_all_or_nothing unit overpass_two tt
           (JObj [("elements"%string, JArr [element_ok; element_without_lon])])
           [element_ok; element_without_lon] element_without_lon).
  - reflexivity.
  - reflexivity.
  - right. left. reflexivity.
  - right. reflexivity.
Defined.

Lemma fetch_stops_in_order_witness :
  exists stops,
    fetch_stops_goyang overpass_one tt = Ret stops /\
    map Some stops = map stop_of_element [element_ok].
Proof.
  apply (@fetch_stops_in_order unit overpass_one tt
           (JObj [("elements"%string, JArr [element_ok])]) [element_ok]).
  - reflexivity.
  - reflexivity.
  - intros e [<- | []]. cbn. discriminate.
Defined.

End MoreExamples.
